(** * The category-hierarchy and tagging engine of [backend/data_store.py]

    A shallow embedding of the business-logic functions of the module
    (ancestor and descendant walks over the category list, the toggle
    and batch operations on items, the item filter and the name
    validator), followed by the properties proved about them.

    Conventions of the embedding.
    - A category or item dictionary is a record; a key that may be
      absent (or [None]) is an [option] field.
    - A Python [str] is the string of its UTF-8 bytes.  Python's
      truthiness tests are written out ([truthy], [blank]); [str.lower],
      whose case tables belong to the interpreter, is a parameter
      [str_lower] of the functions that call it.
    - [set(...)] is a [gset string]; [list(a_set)] is [elements].  The
      order in which Python lists a set is unspecified, so every
      statement about such a list speaks of membership only.
    - The [while True] loop of [get_ancestor_ids] and the recursion of
      [get_descendant_ids] have no bound in the source.  They take a
      fuel argument here (loop iterations, respectively recursion
      depth) and return [None] when it runs out; "the call returns"
      means that some amount of fuel yields [Some]. *)

From Stdlib Require Import Ascii String.
From stdpp Require Import base option list strings gmap sets relations.

Local Open Scope string_scope.
Local Open Scope list_scope.
Local Open Scope nat_scope.
Local Open Scope stdpp_scope.

(** ** Data model *)

Record category := Category {
  c_id : string;
  c_parentId : option string;
  c_name : string
}.

Record item := Item {
  i_id : string;
  i_type : option string;
  i_content : option string;
  i_fileName : option string;
  i_description : option string;
  i_categoryIds : list string
}.

(** [item_copy['categoryIds'] = ids] on a copy of [it]. *)
Definition with_categoryIds (it : item) (ids : list string) : item :=
  {| i_id := i_id it; i_type := i_type it; i_content := i_content it;
     i_fileName := i_fileName it; i_description := i_description it;
     i_categoryIds := ids |}.

(** [item_copy['description'] = d] on a copy of [it]. *)
Definition with_description (it : item) (d : string) : item :=
  {| i_id := i_id it; i_type := i_type it; i_content := i_content it;
     i_fileName := i_fileName it; i_description := Some d;
     i_categoryIds := i_categoryIds it |}.

(** The messages the functions return, one constructor per message. *)
Inductive error_msg :=
  | MsgEmptyName                      (* "名称不能为空" *)
  | MsgDuplicateEntry (name : string) (* "已存在同名条目：..." *)
  | MsgDuplicateFile (name : string)  (* "已存在同名文件：..." *)
  | MsgNoSuchCategoryOnItem (category_id : string) (* "条目不包含分类ID: ..." *)
  | MsgLastCategory                   (* "条目至少需要一个分类..." *)
  | MsgNoSuchItem (item_id : string)  (* "条目不存在: ..." *)
  | MsgNoItemIds                      (* "未提供条目ID" *)
  | MsgNoCategoryIds                  (* "未提供分类ID" *)
  | MsgNothingModified.               (* "没有条目被修改..." *)

(** The error kinds of the specification. *)
Inductive error_kind :=
  | EmptyName | DuplicateName | NotFound | InvalidCategory
  | LastCategory | MissingInput | NoEffect.

Definition kind_of (m : error_msg) : error_kind :=
  match m with
  | MsgEmptyName => EmptyName
  | MsgDuplicateEntry _ | MsgDuplicateFile _ => DuplicateName
  | MsgNoSuchCategoryOnItem _ => InvalidCategory
  | MsgLastCategory => LastCategory
  | MsgNoSuchItem _ => NotFound
  | MsgNoItemIds | MsgNoCategoryIds => MissingInput
  | MsgNothingModified => NoEffect
  end.

(** ** Python strings *)

(** A non-empty string is true. *)
Definition truthy (s : string) : bool := negb (bool_decide (s = "")).

Definition truthy_opt (o : option string) : bool :=
  match o with Some s => truthy s | None => false end.

(** [str.isspace] on one code point: the white space [str.strip]
    removes (U+0009 to U+000D, U+001C to U+0020, U+0085, U+00A0, U+1680,
    U+2000 to U+200A, U+2028, U+2029, U+202F, U+205F and U+3000). *)
Definition is_space (code_point : N) : bool :=
  bool_decide
    (code_point ∈ [9; 10; 11; 12; 13; 28; 29; 30; 31; 32; 133; 160; 5760;
                   8192; 8193; 8194; 8195; 8196; 8197; 8198; 8199; 8200;
                   8201; 8202; 8232; 8233; 8239; 8287; 12288]%N).

(** A byte that continues a UTF-8 sequence. *)
Definition continuation (byte : N) : bool :=
  bool_decide (128 ≤ byte < 192)%N.

(** [not s.strip()]: the string has nothing but white space.  The
    function reads one encoded code point after the other; no white
    space takes more than three bytes, and the three-byte ones are all
    above U+0800, where three-byte sequences start. *)
Fixpoint blank (s : string) : bool :=
  match s with
  | EmptyString => true
  | String a s1 =>
    let a := N_of_ascii a in
    if bool_decide (a < 128)%N then is_space a && blank s1
    else
      match s1 with
      | EmptyString => false
      | String b s2 =>
        let b := N_of_ascii b in
        if bool_decide (194 ≤ a < 224)%N then
          continuation b
          && is_space ((a - 192) * 64 + (b - 128))%N
          && blank s2
        else
          match s2 with
          | EmptyString => false
          | String c s3 =>
            let c := N_of_ascii c in
            let code_point :=
              ((a - 224) * 4096 + (b - 128) * 64 + (c - 128))%N in
            bool_decide (224 ≤ a < 240)%N
            && continuation b && continuation c
            && bool_decide (2048 ≤ code_point)%N && is_space code_point
            && blank s3
          end
      end
  end.

(** [str.lower] on text of ASCII letters, the instance of [str_lower]
    used in the examples. *)
Definition lower_ascii (a : ascii) : ascii :=
  let n := nat_of_ascii a in
  if bool_decide (65 ≤ n ≤ 90) then ascii_of_nat (n + 32) else a.

Fixpoint ascii_lower (s : string) : string :=
  match s with
  | EmptyString => EmptyString
  | String a s' => String (lower_ascii a) (ascii_lower s')
  end.

(** [text.find(query) != -1]. *)
Fixpoint contains (text query : string) : bool :=
  String.prefix query text
  || match text with
     | EmptyString => false
     | String _ text' => contains text' query
     end.

(** ** The category tree *)

(** [next((c for c in categories if c.get('id') == current_id), None)] *)
Definition find_category (current_id : string) (categories : list category)
  : option category :=
  List.find (λ c, bool_decide (c_id c = current_id)) categories.

(** The [while True] loop of [get_ancestor_ids]; its state is
    [(ancestors, current_id)] and one unit of fuel is one iteration. *)
Fixpoint ancestors_loop (fuel : nat) (categories : list category)
    (ancestors : list string) (current_id : string) : option (list string) :=
  match fuel with
  | O => None
  | S fuel' =>
    match find_category current_id categories with
    | None => Some ancestors
    | Some category =>
      match c_parentId category with
      | None => Some ancestors
      | Some parent =>
        if truthy parent
        then ancestors_loop fuel' categories (ancestors ++ [parent]) parent
        else Some ancestors
      end
    end
  end.

Definition get_ancestor_ids (fuel : nat) (category_id : string)
    (categories : list category) : option (list string) :=
  match categories with
  | [] => Some [category_id]
  | _ => ancestors_loop fuel categories [category_id] category_id
  end.

(** [expanded.update(get_ancestor_ids(cat_id, categories))] for each id. *)
Fixpoint expand_loop (fuel : nat) (category_ids : list string)
    (categories : list category) (expanded : gset string)
  : option (gset string) :=
  match category_ids with
  | [] => Some expanded
  | cat_id :: rest =>
    chain ← get_ancestor_ids fuel cat_id categories;
    expand_loop fuel rest categories (expanded ∪ list_to_set chain)
  end.

Definition expand_category_ids (fuel : nat) (category_ids : list string)
    (categories : list category) : option (list string) :=
  elements <$> expand_loop fuel category_ids categories ∅.

(** One unit of fuel is one level of recursion. *)
Fixpoint get_descendant_ids (fuel : nat) (root_id : string)
    (categories : list category) : option (list string) :=
  match fuel with
  | O => None
  | S fuel' =>
    match categories with
    | [] => Some []
    | _ =>
      let children :=
        filter (λ c, c_parentId c = Some root_id) categories in
      let ids := c_id <$> children in
      below ← mapM (λ child, get_descendant_ids fuel' (c_id child) categories)
                   children;
      Some (ids ++ mjoin below)
    end
  end.

(** [child] names a category of the list whose [parentId] is [parent]. *)
Definition parent_edge (categories : list category) (child parent : string)
  : Prop :=
  ∃ c, c ∈ categories ∧ c_id c = child ∧ c_parentId c = Some parent.

(** No category is its own ancestor. *)
Definition acyclic (categories : list category) : Prop :=
  ∀ x, ¬ tc (parent_edge categories) x x.

(** ** The tagging engine *)

(** [item['id'] in item_ids] *)
Definition selected (item_ids : list string) (it : item) : bool :=
  bool_decide (i_id it ∈ item_ids).
Global Arguments selected : simpl never.

Definition toggle_category_association (fuel : nat) (items : list item)
    (item_ids : list string) (category_id : string)
    (categories : list category) : option (list item) :=
  let selected_items := List.filter (selected item_ids) items in
  let all_have_category :=
    forallb (λ it, bool_decide (category_id ∈ i_categoryIds it))
            selected_items in
  if all_have_category then
    descendants ← get_descendant_ids fuel category_id categories;
    let categories_to_remove : gset string :=
      match descendants with
      | _ :: _ => list_to_set ([category_id] ++ descendants)
      | [] => list_to_set [category_id]
      end in
    Some ((λ it,
             if selected item_ids it then
               let current_ids : gset string :=
                 list_to_set (i_categoryIds it) in
               with_categoryIds it
                 (elements (current_ids ∖ categories_to_remove))
             else it)
          <$> items)
  else
    descendants ← get_descendant_ids fuel category_id categories;
    categories_to_add ←
      match descendants with
      | _ :: _ => Some [category_id]
      | [] => get_ancestor_ids fuel category_id categories
      end;
    Some ((λ it,
             if selected item_ids it then
               let current_ids : gset string :=
                 list_to_set (i_categoryIds it) in
               with_categoryIds it
                 (elements (current_ids ∪ list_to_set categories_to_add))
             else it)
          <$> items).

Definition batch_add_tags (fuel : nat) (items : list item)
    (item_ids : list string) (category_id : string)
    (categories : list category) : option (list item) :=
  category_ids_to_add ←
    match categories with
    | _ :: _ => expand_category_ids fuel [category_id] categories
    | [] => Some [category_id]
    end;
  Some ((λ it,
               if selected item_ids it then
                 let current_ids : gset string :=
                   list_to_set (i_categoryIds it) in
                 with_categoryIds it
                   (elements (current_ids ∪ list_to_set category_ids_to_add))
               else it)
            <$> items).

Definition batch_edit (items : list item) (item_ids : list string)
    (description : option string) (category_id : option string)
  : list item :=
  (λ it,
         if selected item_ids it then
           let item_copy :=
             match description with
             | Some d =>
               if truthy d && negb (blank d) then with_description it d
               else it
             | None => it
             end in
           match category_id with
           | Some c =>
             if truthy c && negb (bool_decide (c ∈ i_categoryIds it))
             then with_categoryIds item_copy (i_categoryIds it ++ [c])
             else item_copy
           | None => item_copy
           end
         else it)
  <$> items.

Definition batch_delete (items : list item) (item_ids : list string)
  : list item :=
  List.filter (λ it, negb (selected item_ids it)) items.

(** The loop of [remove_category_from_item]; its state is
    [(item_found, updated_items)], [items] is the whole input list. *)
Fixpoint remove_category_loop (items rest : list item)
    (item_id category_id : string) (item_found : bool)
    (updated_items : list item) : list item * option error_msg :=
  match rest with
  | [] =>
    if item_found then (updated_items, None)
    else (items, Some (MsgNoSuchItem item_id))
  | it :: rest' =>
    if bool_decide (i_id it = item_id) then
      let category_ids := i_categoryIds it in
      if negb (bool_decide (category_id ∈ category_ids)) then
        (items, Some (MsgNoSuchCategoryOnItem category_id))
      else
        let new_category_ids :=
          List.filter (λ cid, negb (bool_decide (cid = category_id)))
                      category_ids in
        if bool_decide (length new_category_ids = 0) then
          (items, Some MsgLastCategory)
        else
          remove_category_loop items rest' item_id category_id true
            (updated_items ++ [with_categoryIds it new_category_ids])
    else
      remove_category_loop items rest' item_id category_id item_found
        (updated_items ++ [it])
  end.

Definition remove_category_from_item (items : list item)
    (item_id category_id : string) : list item * option error_msg :=
  remove_category_loop items items item_id category_id false [].

(** The loop of [batch_remove_categories]; its state is
    [(updated_items, modified_count)]. *)
Fixpoint batch_remove_loop (rest : list item) (item_ids : list string)
    (categories_to_remove : gset string) (updated_items : list item)
    (modified_count : nat) : list item * nat :=
  match rest with
  | [] => (updated_items, modified_count)
  | it :: rest' =>
    if selected item_ids it then
      let original_category_ids := i_categoryIds it in
      let new_category_ids :=
        List.filter (λ cid, negb (bool_decide (cid ∈ categories_to_remove)))
                    original_category_ids in
      if bool_decide (length new_category_ids = 0) then
        batch_remove_loop rest' item_ids categories_to_remove
          (updated_items ++ [it]) modified_count
      else
        batch_remove_loop rest' item_ids categories_to_remove
          (updated_items ++ [with_categoryIds it new_category_ids])
          (if bool_decide (length new_category_ids
                           ≠ length original_category_ids)
           then modified_count + 1 else modified_count)
    else
      batch_remove_loop rest' item_ids categories_to_remove
        (updated_items ++ [it]) modified_count
  end.

Definition batch_remove_categories (items : list item)
    (item_ids category_ids : list string) : list item * option error_msg :=
  match item_ids with
  | [] => (items, Some MsgNoItemIds)
  | _ =>
    match category_ids with
    | [] => (items, Some MsgNoCategoryIds)
    | _ =>
      let categories_to_remove : gset string := list_to_set category_ids in
      let '(updated_items, modified_count) :=
        batch_remove_loop items item_ids categories_to_remove [] 0 in
      if bool_decide (modified_count = 0)
      then (items, Some MsgNothingModified)
      else (updated_items, None)
    end
  end.

(** ** The item filter *)

(** The inner loop of the category filter: [matches_all], with its
    [break] at the first filter id no category of the item falls under. *)
Fixpoint matches_all_filters (fuel : nat) (item_category_ids : list string)
    (categories : list category) (selected_category_ids : list string)
  : option bool :=
  match selected_category_ids with
  | [] => Some true
  | filter_id :: rest =>
    below ← get_descendant_ids fuel filter_id categories;
    let valid_branch_ids : gset string :=
      list_to_set ([filter_id] ++ below) in
    if existsb (λ cid, bool_decide (cid ∈ valid_branch_ids))
               item_category_ids
    then matches_all_filters fuel item_category_ids categories rest
    else Some false
  end.

(** The outer loop of the category filter. *)
Fixpoint category_filter (fuel : nat) (result : list item)
    (categories : list category) (selected_category_ids : list string)
  : option (list item) :=
  match result with
  | [] => Some []
  | it :: rest =>
    match i_categoryIds it with
    | [] => category_filter fuel rest categories selected_category_ids
    | item_category_ids =>
      matches_all ← matches_all_filters fuel item_category_ids categories
                                        selected_category_ids;
      filtered ← category_filter fuel rest categories selected_category_ids;
      Some (if matches_all : bool then it :: filtered else filtered)
    end
  end.

Definition is_text_or_url (t : option string) : bool :=
  bool_decide (t = Some "text") || bool_decide (t = Some "url").

(** The body of the search loop, [query] already in lower case. *)
Definition matches_query (str_lower : string → string) (query : string)
    (it : item) : bool :=
  let matches_desc :=
    contains (str_lower (default "" (i_description it))) query in
  let matches_filename :=
    contains (str_lower (default "" (i_fileName it))) query in
  let matches_content :=
    if is_text_or_url (i_type it)
    then contains (str_lower (default "" (i_content it))) query
    else false in
  matches_desc || matches_filename || matches_content.

Definition filter_items (str_lower : string → string) (fuel : nat)
    (items : list item) (categories : list category)
    (selected_category_ids : option (list string))
    (search_query : option string) : option (list item) :=
  let result := items in
  result ←
    match selected_category_ids with
    | Some ((_ :: _) as ids) => category_filter fuel result categories ids
    | _ => Some result
    end;
  Some match search_query with
       | Some q =>
         if truthy q && negb (blank q)
         then List.filter (matches_query str_lower (str_lower q)) result
         else result
       | None => result
       end.

(** ** The name validator *)

Fixpoint validate_scan (items : list item) (item_name : string)
    (item_type exclude_id : option string) : option error_msg :=
  match items with
  | [] => None
  | it :: rest =>
    if truthy_opt exclude_id && bool_decide (Some (i_id it) = exclude_id)
    then validate_scan rest item_name item_type exclude_id
    else if is_text_or_url item_type then
      if is_text_or_url (i_type it)
         && bool_decide (i_content it = Some item_name)
      then Some (MsgDuplicateEntry item_name)
      else validate_scan rest item_name item_type exclude_id
    else
      if bool_decide (i_type it = item_type)
         && bool_decide (i_fileName it = Some item_name)
      then Some (MsgDuplicateFile item_name)
      else validate_scan rest item_name item_type exclude_id
  end.

Definition validate_item_name (items : list item) (item_name : string)
    (item_type exclude_id : option string) : option error_msg :=
  if negb (truthy item_name) || blank item_name then Some MsgEmptyName
  else validate_scan items item_name item_type exclude_id.

(** ** Sample data: the tree A -> B -> C of the specification's scenarios *)

Definition catA : category := Category "A" None "A".
Definition catB : category := Category "B" (Some "A") "B".
Definition catC : category := Category "C" (Some "B") "C".
Definition treeABC : list category := [catA; catB; catC].

(** A category that names itself as its parent. *)
Definition catLoop : category := Category "L" (Some "L") "L".

Definition mk_item (id : string) (ids : list string) : item :=
  Item id (Some "text") (Some id) None None ids.

(** A list with a dangling parent link, next to the tree A -> B -> C. *)
Definition treeDangling : list category :=
  [Category "B" (Some "gone") "B"; Category "C" (Some "B") "C"].

(** A list is acyclic when its ids can be ranked with every parent
    below its children; [position order] is such a ranking when the
    check [parents_first] succeeds. *)
Fixpoint position (order : list string) (x : string) : nat :=
  match order with
  | [] => 0
  | y :: rest => if decide (x = y) then 0 else S (position rest x)
  end.

Definition parents_first (order : list string) (categories : list category)
  : bool :=
  forallb (λ c, match c_parentId c with
                | Some p =>
                  bool_decide (position order p < position order (c_id c))
                | None => true
                end)
          categories.

(** Every item named by [item_ids] already holds [category_id]. *)
Definition all_selected_have (items : list item) (item_ids : list string)
    (category_id : string) : Prop :=
  ∀ it, it ∈ items → i_id it ∈ item_ids → category_id ∈ i_categoryIds it.

(** ** The batch removal, item by item

    A second description of [batch_remove_categories], following the
    wording of the specification; the loop is compared with it below. *)

(** The category ids of [it] that are not among [category_ids]. *)
Definition remaining_category_ids (category_ids : list string) (it : item)
  : list string :=
  List.filter (λ cid, negb (bool_decide (cid ∈ category_ids)))
              (i_categoryIds it).

(** Selected items lose the given categories, unless that would leave
    them without any; all other items stay as they are. *)
Definition batch_remove_one (item_ids category_ids : list string) (it : item)
  : item :=
  if selected item_ids it then
    match remaining_category_ids category_ids it with
    | [] => it
    | ids => with_categoryIds it ids
    end
  else it.

(** The item is selected, is not skipped, and loses a category. *)
Definition actually_modified (item_ids category_ids : list string)
    (it : item) : bool :=
  selected item_ids it
  && negb (bool_decide (remaining_category_ids category_ids it = []))
  && negb (bool_decide (remaining_category_ids category_ids it
                        = i_categoryIds it)).

(** The condition of the category filter on the category ids of one
    item: each filter id has one of them under it or equal to it. *)
Definition under_every_filter (fuel : nat) (categories : list category)
    (selected_category_ids item_category_ids : list string) : Prop :=
  ∀ f, f ∈ selected_category_ids →
    ∃ below,
      get_descendant_ids fuel f categories = Some below
      ∧ ∃ cid, cid ∈ item_category_ids ∧ (cid = f ∨ cid ∈ below).

(** ** The name validator, item by item *)

(** [it] is passed over by the scan: an exclude id is given, as a
    non-empty string, and it is the id of [it]. *)
Definition excluded (exclude_id : option string) (it : item) : Prop :=
  truthy_opt exclude_id = true ∧ exclude_id = Some (i_id it).

(** [it] already has the name, in the scope that goes with [item_type]:
    the content of any text or url item for a text or a url, the file
    name of an item of the same type otherwise. *)
Definition collides (item_name : string) (item_type : option string)
    (it : item) : Prop :=
  if is_text_or_url item_type
  then is_text_or_url (i_type it) = true ∧ i_content it = Some item_name
  else i_type it = item_type ∧ i_fileName it = Some item_name.

Global Instance excluded_dec exclude_id it : Decision (excluded exclude_id it).
Proof. unfold excluded. apply _. Defined.

Global Instance collides_dec item_name item_type it :
  Decision (collides item_name item_type it).
Proof. unfold collides. destruct (is_text_or_url item_type); apply _. Defined.

(** Two files of the same name. *)
Definition twoReports : list item :=
  [Item "1" (Some "file") None (Some "report.pdf") None ["A"];
   Item "2" (Some "file") None (Some "report.pdf") None ["A"]].

(** ** Operations that keep the items in place *)

(** [items'] has an item with the same id at every position of [items],
    and nothing else; the items that are not [touched] are the same. *)
Definition same_items_but (touched : item → Prop) (items items' : list item)
  : Prop :=
  i_id <$> items' = i_id <$> items
  ∧ length items' = length items
  ∧ ∀ i it, items !! i = Some it → ¬ touched it → items' !! i = Some it.

(** ** Further notions used to describe the code *)

(** One step of the loop of [get_ancestor_ids]: the id it moves to from
    [current_id], if it does not stop there. *)
Definition parent_of (categories : list category) (current_id : string)
  : option string :=
  match find_category current_id categories with
  | None => None
  | Some category =>
    match c_parentId category with
    | None => None
    | Some parent => if truthy parent then Some parent else None
    end
  end.

(** The same item up to the order (and repetitions) of its category ids,
    which [list(a_set)] leaves open. *)
Definition same_item_up_to_order (it it' : item) : Prop :=
  it' = with_categoryIds it (i_categoryIds it')
  ∧ ∀ x, x ∈ i_categoryIds it' ↔ x ∈ i_categoryIds it.

(** The items of [rest] with the id [item_id] all hold [category_id],
    and another category id beside it. *)
Definition removable_everywhere (item_id category_id : string)
    (rest : list item) : Prop :=
  ∀ it, it ∈ rest → i_id it = item_id →
        category_id ∈ i_categoryIds it
        ∧ ∃ x, x ∈ i_categoryIds it ∧ x ≠ category_id.

(** The items the validator looks at for a name of type [item_type]:
    the text and url items for a text or a url, the items of that very
    type otherwise. *)
Definition in_name_scope (item_type : option string) (it : item) : bool :=
  if is_text_or_url item_type then is_text_or_url (i_type it)
  else bool_decide (i_type it = item_type).

(** ** Two request handlers of [backend/server.py]

    A handler reads the stored document, computes, and writes the
    document back with [save_state].  Here it takes what [load_state]
    returned and a flag telling whether the write succeeds, and returns
    its answer with the list that is stored once it is done.  Request
    bodies are taken to be well-formed item dictionaries. *)

Inductive response :=
  | Created (body : item)          (* 201, the item *)
  | Success                        (* 200, {"success": true} *)
  | BadRequest (message : error_msg) (* 400 *)
  | NotFoundOrFailed               (* 404 *)
  | ServerError.                   (* 500 *)

(** The name the handlers validate: [content] for a text or a url,
    [fileName] otherwise, the empty string when the key is missing. *)
Definition item_name_of (body : item) : string :=
  if is_text_or_url (i_type body) then default "" (i_content body)
  else default "" (i_fileName body).

(** [POST /api/items] *)
Definition post_item (fuel : nat) (items : list item)
    (categories : list category) (body : item) (save_ok : bool)
  : option (response * list item) :=
  let item_type := i_type body in
  let item_name := item_name_of body in
  match validate_item_name items item_name item_type None with
  | Some error => Some (BadRequest error, items)
  | None =>
    body ←
      match i_categoryIds body with
      | [] => Some body
      | ids => with_categoryIds body <$> expand_category_ids fuel ids categories
      end;
    if save_ok then Some (Created body, body :: items)
    else Some (ServerError, items)
  end.

(** [DELETE /api/categories/<category_id>] *)
Definition delete_category (categories : list category)
    (category_id : string) (save_ok : bool) : response * list category :=
  let original_count := length categories in
  let remaining :=
    List.filter (λ c, negb (bool_decide (c_id c = category_id))) categories in
  if bool_decide (length remaining < original_count) && save_ok
  then (Success, remaining)
  else (NotFoundOrFailed, categories).

(** Two items that the validator takes to have the same name. *)
Definition same_name (it1 it2 : item) : Prop :=
  if is_text_or_url (i_type it1)
  then is_text_or_url (i_type it2) = true
       ∧ is_Some (i_content it1) ∧ i_content it2 = i_content it1
  else i_type it2 = i_type it1
       ∧ is_Some (i_fileName it1) ∧ i_fileName it2 = i_fileName it1.

(** No two items of the list have the same name. *)
Definition names_unique (items : list item) : Prop :=
  ∀ i j it1 it2,
    items !! i = Some it1 → items !! j = Some it2 → i ≠ j →
    ¬ same_name it1 it2.

(** * Properties *)

(** ** The walks over the category list *)

Section walks.
Context (categories : list category).

Local Abbreviation edge := (parent_edge categories).

Lemma find_category_Some x c :
  find_category x categories = Some c → c ∈ categories ∧ c_id c = x.
Proof.
  unfold find_category. intros H. apply find_some in H as [Hin Hid].
  apply bool_decide_eq_true in Hid. by rewrite list_elem_of_In.
Qed.

Lemma get_ancestor_ids_unfold fuel x :
  get_ancestor_ids fuel x categories
  = if decide (categories = []) then Some [x]
    else ancestors_loop fuel categories [x] x.
Proof. unfold get_ancestor_ids. by destruct categories. Qed.

Lemma get_descendant_ids_unfold fuel root :
  get_descendant_ids (S fuel) root categories
  = if decide (categories = []) then Some []
    else
      below ← mapM (λ child,
                      get_descendant_ids fuel (c_id child) categories)
                   (filter (λ c, c_parentId c = Some root) categories);
      Some ((c_id <$> filter (λ c, c_parentId c = Some root) categories)
            ++ mjoin below).
Proof. simpl. by destruct categories. Qed.

(** The accumulator of the loop only collects: the ids appended do not
    depend on it. *)
Lemma ancestors_loop_acc fuel acc cur :
  ancestors_loop fuel categories acc cur
  = (acc ++.) <$> ancestors_loop fuel categories [] cur.
Proof.
  revert acc cur. induction fuel as [|fuel IH]; intros acc cur; [done|].
  simpl. destruct (find_category cur categories) as [c|]; simpl;
    [|by rewrite app_nil_r].
  destruct (c_parentId c) as [p|]; simpl; [|by rewrite app_nil_r].
  destruct (truthy p); simpl; [|by rewrite app_nil_r].
  rewrite (IH (acc ++ [p])), (IH [p]).
  destruct (ancestors_loop fuel categories [] p); simpl; [|done].
  by rewrite <-app_assoc.
Qed.

Lemma ancestors_loop_mono fuel fuel' acc cur r :
  ancestors_loop fuel categories acc cur = Some r → fuel ≤ fuel' →
  ancestors_loop fuel' categories acc cur = Some r.
Proof.
  revert fuel' acc cur. induction fuel as [|fuel IH];
    intros fuel' acc cur H Hle; [done|].
  destruct fuel' as [|fuel']; [lia|]. simpl in *.
  destruct (find_category cur categories) as [c|]; [|done].
  destruct (c_parentId c) as [p|]; [|done].
  destruct (truthy p); [|done]. apply IH; [done|lia].
Qed.

Lemma get_ancestor_ids_mono fuel fuel' x r :
  get_ancestor_ids fuel x categories = Some r → fuel ≤ fuel' →
  get_ancestor_ids fuel' x categories = Some r.
Proof.
  rewrite !get_ancestor_ids_unfold. case_decide; [done|].
  apply ancestors_loop_mono.
Qed.

Lemma get_descendant_ids_mono fuel fuel' root r :
  get_descendant_ids fuel root categories = Some r → fuel ≤ fuel' →
  get_descendant_ids fuel' root categories = Some r.
Proof.
  revert fuel' root r. induction fuel as [|fuel IH];
    intros fuel' root r H Hle; [done|].
  destruct fuel' as [|fuel']; [lia|].
  rewrite get_descendant_ids_unfold in *. case_decide; [done|].
  destruct (mapM _ _) as [below|] eqn:Hm; [|done]. simpl in H.
  assert (mapM (λ child, get_descendant_ids fuel' (c_id child) categories)
            (filter (λ c, c_parentId c = Some root) categories)
          = Some below) as ->; [|done].
  apply mapM_Some. apply mapM_Some in Hm.
  eapply Forall2_impl; [exact Hm|]. intros c l Hc. apply IH; [done|lia].
Qed.

(** Ids that are pairwise distinct and all name categories of the list
    are no more than the list has entries. *)
Lemma distinct_ids_bound (vis : list string) :
  NoDup vis → (∀ v, v ∈ vis → v ∈ c_id <$> categories) →
  length vis ≤ length categories.
Proof.
  intros Hnd Hin. rewrite <-(length_fmap c_id categories).
  apply submseteq_length. by apply NoDup_submseteq.
Qed.

Lemma edge_child_in child parent :
  edge child parent → child ∈ c_id <$> categories.
Proof. intros (c & Hc & <- & _). by apply list_elem_of_fmap_2. Qed.

Section acyclic.
Hypothesis Hacyclic : acyclic categories.

Lemma ancestors_loop_returns_aux fuel vis acc cur :
  NoDup vis → (∀ v, v ∈ vis → v ∈ c_id <$> categories) →
  (∀ v, v ∈ vis → tc edge v cur) →
  length categories < fuel + length vis →
  is_Some (ancestors_loop fuel categories acc cur).
Proof.
  revert vis acc cur. induction fuel as [|fuel IH];
    intros vis acc cur Hnd Hin Hreach Hlen.
  - pose proof (distinct_ids_bound vis Hnd Hin). simpl in Hlen. lia.
  - simpl. destruct (find_category cur categories) as [c|] eqn:Hfind;
      [|by eexists].
    apply find_category_Some in Hfind as [Hc Hid].
    destruct (c_parentId c) as [p|] eqn:Hp; [|by eexists].
    destruct (truthy p); [|by eexists].
    assert (edge cur p) as Hedge by (by exists c).
    apply (IH (cur :: vis)).
    + constructor; [|done]. intros Hcur.
      by apply (Hacyclic cur), Hreach.
    + intros v [->|Hv]%elem_of_cons; [by eapply edge_child_in|by apply Hin].
    + intros v [->|Hv]%elem_of_cons; [by apply tc_once|].
      eapply tc_r; [by apply Hreach|done].
    + simpl. lia.
Qed.

Lemma get_ancestor_ids_returns fuel x :
  length categories < fuel →
  is_Some (get_ancestor_ids fuel x categories).
Proof.
  intros Hlen. rewrite get_ancestor_ids_unfold. case_decide; [by eexists|].
  apply (ancestors_loop_returns_aux fuel []); try (by inversion 1).
  - constructor.
  - simpl. lia.
Qed.

Lemma get_descendant_ids_returns_aux fuel vis root :
  NoDup vis → (∀ v, v ∈ vis → v ∈ c_id <$> categories) →
  (∀ v, v ∈ vis → rtc edge root v) →
  length categories < fuel + length vis →
  is_Some (get_descendant_ids fuel root categories).
Proof.
  revert vis root. induction fuel as [|fuel IH];
    intros vis root Hnd Hin Hreach Hlen.
  - pose proof (distinct_ids_bound vis Hnd Hin). simpl in Hlen. lia.
  - rewrite get_descendant_ids_unfold. case_decide; [by eexists|].
    cut (is_Some (mapM
           (λ child, get_descendant_ids fuel (c_id child) categories)
           (filter (λ c, c_parentId c = Some root) categories))).
    { intros [below ->]. by eexists. }
    apply mapM_is_Some, Forall_forall. intros c Hc. simpl.
    apply list_elem_of_filter in Hc as [Hp Hc].
    assert (edge (c_id c) root) as Hedge by (by exists c).
    apply (IH (c_id c :: vis)).
    + constructor; [|done]. intros Hv.
      apply (Hacyclic (c_id c)). eapply tc_rtc_r; [by apply tc_once|].
      by apply Hreach.
    + intros v [->|Hv]%elem_of_cons; [by eapply edge_child_in|by apply Hin].
    + intros v [->|Hv]%elem_of_cons; [done|].
      eapply rtc_l; [done|]. by apply Hreach.
    + simpl. lia.
Qed.

Lemma get_descendant_ids_returns fuel root :
  length categories < fuel →
  is_Some (get_descendant_ids fuel root categories).
Proof.
  intros Hlen.
  apply (get_descendant_ids_returns_aux fuel []); try (by inversion 1).
  - constructor.
  - simpl. lia.
Qed.
End acyclic.
End walks.


Lemma parents_first_acyclic order categories :
  parents_first order categories = true → acyclic categories.
Proof.
  intros Hpf.
  assert (∀ x y, tc (parent_edge categories) x y →
                 position order y < position order x) as Hdown.
  { assert (∀ x y, parent_edge categories x y →
                   position order y < position order x) as Hstep.
    { intros x y (c & Hc & <- & Hp).
      unfold parents_first in Hpf. rewrite forallb_forall in Hpf.
      apply list_elem_of_In, Hpf in Hc. rewrite Hp in Hc.
      by apply bool_decide_eq_true in Hc. }
    induction 1 as [x y H|x y z H _ IH].
    - by apply Hstep.
    - apply Hstep in H. lia. }
  intros x Hx. apply Hdown in Hx. lia.
Qed.

Lemma treeABC_acyclic : acyclic treeABC.
Proof. by apply (parents_first_acyclic ["A"; "B"; "C"]). Qed.

(** ** C8: expanding with ancestors *)

Section ancestor_chains.
Context (categories : list category).

(** Every id the loop appends starts a walk of its own that the same
    fuel completes and that stays within the ids already appended. *)
Lemma ancestors_loop_closed fuel cur tail :
  ancestors_loop fuel categories [] cur = Some tail →
  ∀ t, t ∈ tail →
    ∃ tail', ancestors_loop fuel categories [] t = Some tail'
             ∧ tail' ⊆ tail.
Proof.
  revert cur tail. induction fuel as [|fuel IH]; intros cur tail H t Ht;
    [done|].
  simpl in H. destruct (find_category cur categories) as [c|];
    [|by simplify_eq; inversion Ht].
  destruct (c_parentId c) as [p|]; [|by simplify_eq; inversion Ht].
  destruct (truthy p); [|by simplify_eq; inversion Ht].
  rewrite ancestors_loop_acc in H.
  destruct (ancestors_loop fuel categories [] p) as [tail_p|] eqn:Hp;
    [|done].
  simpl in H. simplify_eq.
  apply elem_of_cons in Ht as [->|Ht].
  - exists tail_p. split; [|set_solver].
    eapply ancestors_loop_mono; [done|lia].
  - destruct (IH _ _ Hp t Ht) as (tail' & Ht' & Hsub).
    exists tail'. split; [|set_solver].
    eapply ancestors_loop_mono; [done|lia].
Qed.

Lemma get_ancestor_ids_head fuel x r :
  get_ancestor_ids fuel x categories = Some r → ∃ tail, r = x :: tail.
Proof.
  rewrite get_ancestor_ids_unfold. case_decide.
  - intros [= <-]. by eexists.
  - rewrite ancestors_loop_acc.
    destruct (ancestors_loop fuel categories [] x) as [tail|]; [|done].
    intros [= <-]. by eexists.
Qed.

Lemma get_ancestor_ids_closed fuel x r :
  get_ancestor_ids fuel x categories = Some r →
  ∀ t, t ∈ r →
    ∃ r', get_ancestor_ids fuel t categories = Some r' ∧ r' ⊆ r.
Proof.
  rewrite get_ancestor_ids_unfold. intros H t Ht.
  rewrite get_ancestor_ids_unfold. case_decide.
  - simplify_eq. exists [t]. split; [done|]. set_solver.
  - rewrite ancestors_loop_acc in H.
    destruct (ancestors_loop fuel categories [] x) as [tail|] eqn:Hx;
      [|done].
    simpl in H. simplify_eq. apply elem_of_cons in Ht as [->|Ht].
    + exists (x :: tail). split; [|done].
      by rewrite ancestors_loop_acc, Hx.
    + destruct (ancestors_loop_closed _ _ _ Hx t Ht) as (tail' & Ht' & Hsub).
      exists (t :: tail'). split; [|set_solver].
      by rewrite ancestors_loop_acc, Ht'.
Qed.

(** What [expand_loop] collects. *)
Lemma expand_loop_elem_of fuel ids expanded s :
  expand_loop fuel ids categories expanded = Some s →
  ∀ y, y ∈ s ↔
       y ∈ expanded
       ∨ ∃ x r, x ∈ ids ∧ get_ancestor_ids fuel x categories = Some r
                ∧ y ∈ r.
Proof.
  revert expanded. induction ids as [|x ids IH]; intros expanded H y.
  - simpl in H. simplify_eq. split; [by left|].
    intros [?|(x & r & Hx & _)]; [done|inversion Hx].
  - simpl in H.
    destruct (get_ancestor_ids fuel x categories) as [chain|] eqn:Hx;
      [|done].
    simpl in H. rewrite (IH _ H y), elem_of_union, elem_of_list_to_set.
    split.
    + intros [[?|?]|(x' & r & Hx' & Hr & Hy)]; [by left| |].
      * right. exists x, chain. by rewrite elem_of_cons; auto.
      * right. exists x', r. by rewrite elem_of_cons; auto.
    + intros [?|(x' & r & [->|Hx']%elem_of_cons & Hr & Hy)]; [by auto| |].
      * simplify_eq. by auto.
      * right. by exists x', r.
Qed.

Lemma expand_loop_is_Some fuel ids expanded :
  (∀ x, x ∈ ids → is_Some (get_ancestor_ids fuel x categories)) →
  is_Some (expand_loop fuel ids categories expanded).
Proof.
  revert expanded. induction ids as [|x ids IH]; intros expanded H;
    [by eexists|].
  simpl. destruct (H x) as [chain ->]; [by left|]. simpl.
  apply IH. intros x' Hx'. apply H. by right.
Qed.

Lemma expand_category_ids_elem_of fuel ids e :
  expand_category_ids fuel ids categories = Some e →
  ∀ y, y ∈ e ↔
       ∃ x r, x ∈ ids ∧ get_ancestor_ids fuel x categories = Some r
              ∧ y ∈ r.
Proof.
  unfold expand_category_ids. intros H y.
  destruct (expand_loop fuel ids categories ∅) as [s|] eqn:Hs; [|done].
  simpl in H. simplify_eq.
  rewrite elem_of_elements, (expand_loop_elem_of _ _ _ _ Hs y).
  set_solver.
Qed.

(** A second expansion returns whenever the first one did, and adds
    nothing. *)
Lemma expand_category_ids_again fuel ids e1 :
  expand_category_ids fuel ids categories = Some e1 →
  ∃ e2, expand_category_ids fuel e1 categories = Some e2
        ∧ ∀ y, y ∈ e2 ↔ y ∈ e1.
Proof.
  intros H1.
  pose proof (expand_category_ids_elem_of _ _ _ H1) as Hin1.
  assert (∀ t, t ∈ e1 →
            ∃ r', get_ancestor_ids fuel t categories = Some r'
                  ∧ r' ⊆ e1) as Hclosed.
  { intros t (x & r & Hx & Hr & Ht)%Hin1.
    destruct (get_ancestor_ids_closed _ _ _ Hr t Ht) as (r' & Hr' & Hsub).
    exists r'. split; [done|]. intros y Hy. apply Hin1.
    exists x, r. set_solver. }
  destruct (expand_loop_is_Some fuel e1 ∅) as [s Hs].
  { intros t (r' & -> & _)%Hclosed. by eexists. }
  exists (elements s). split.
  { unfold expand_category_ids. by rewrite Hs. }
  intros y. rewrite elem_of_elements, (expand_loop_elem_of _ _ _ _ Hs y).
  split.
  - intros [?|(t & r & Ht & Hr & Hy)]; [set_solver|].
    destruct (Hclosed t Ht) as (r' & Hr' & Hsub). simplify_eq.
    by apply Hsub.
  - intros Hy. right. destruct (Hclosed y Hy) as (r' & Hr' & _).
    exists y, r'. split_and!; [done..|].
    destruct (get_ancestor_ids_head _ _ _ Hr') as [tail ->]. by left.
Qed.
End ancestor_chains.

(** C8: on an acyclic category list, and for every list of ids (known to
    the category list or not), [expand_category_ids] returns, expanding
    its result returns as well, and both results have the same ids. *)
Theorem C8_expand_category_ids_idempotent categories ids fuel :
  acyclic categories → length categories < fuel →
  ∃ e1 e2,
    expand_category_ids fuel ids categories = Some e1
    ∧ expand_category_ids fuel e1 categories = Some e2
    ∧ (∀ y, y ∈ e2 ↔ y ∈ e1)
    ∧ (∀ y, y ∈ ids → y ∈ e1).
Proof.
  intros Hacyclic Hlen.
  destruct (expand_loop_is_Some categories fuel ids ∅) as [s Hs].
  { intros x _. by apply get_ancestor_ids_returns. }
  assert (expand_category_ids fuel ids categories = Some (elements s)) as H1.
  { unfold expand_category_ids. by rewrite Hs. }
  destruct (expand_category_ids_again _ _ _ _ H1) as (e2 & H2 & Heq).
  exists (elements s), e2. split_and!; [done..|].
  intros y Hy. apply (expand_category_ids_elem_of _ _ _ _ H1).
  destruct (get_ancestor_ids_returns categories Hacyclic fuel y Hlen)
    as [r Hr].
  exists y, r. split_and!; [done..|].
  destruct (get_ancestor_ids_head _ _ _ _ Hr) as [tail ->]. by left.
Qed.

Lemma C8_expand_category_ids_idempotent_witness :
  ∃ e1 e2,
    expand_category_ids 4 ["C"; "unknown"] treeABC = Some e1
    ∧ expand_category_ids 4 e1 treeABC = Some e2
    ∧ (∀ y, y ∈ e2 ↔ y ∈ e1)
    ∧ (∀ y, y ∈ ["C"; "unknown"] → y ∈ e1).
Proof.
  apply (C8_expand_category_ids_idempotent treeABC ["C"; "unknown"] 4).
  - apply (parents_first_acyclic ["A"; "B"; "C"]). reflexivity.
  - simpl. lia.
Defined.

(** ** What the walks compute *)

Lemma tc_inv_r {A} (R : relation A) x z :
  tc R x z → R x z ∨ ∃ y, tc R x y ∧ R y z.
Proof.
  induction 1 as [x z H|x y z H Hyz IH]; [by left|]. right.
  destruct IH as [Hone|(w & Hyw & Hwz)].
  - exists y. split; [by apply tc_once|done].
  - exists w. split; [by eapply tc_l|done].
Qed.

Section walk_results.
Context (categories : list category).

Local Abbreviation edge := (parent_edge categories).

Lemma ancestors_loop_sound fuel cur tail :
  ancestors_loop fuel categories [] cur = Some tail →
  ∀ a, a ∈ tail → tc edge cur a.
Proof.
  revert cur tail. induction fuel as [|fuel IH]; intros cur tail H a Ha;
    [done|].
  simpl in H.
  destruct (find_category cur categories) as [c|] eqn:Hfind;
    [|by simplify_eq; inversion Ha].
  apply find_category_Some in Hfind as [Hc Hid].
  destruct (c_parentId c) as [p|] eqn:Hp; [|by simplify_eq; inversion Ha].
  destruct (truthy p); [|by simplify_eq; inversion Ha].
  rewrite ancestors_loop_acc in H.
  destruct (ancestors_loop fuel categories [] p) as [tail_p|] eqn:Hloop;
    [|done].
  simpl in H. simplify_eq.
  assert (edge (c_id c) p) as Hedge by (by exists c).
  apply elem_of_cons in Ha as [->|Ha]; [by apply tc_once|].
  eapply tc_l; [done|]. by eapply IH.
Qed.

(** The chain is the start id followed by proper ancestors. *)
Lemma get_ancestor_ids_sound fuel x r :
  get_ancestor_ids fuel x categories = Some r →
  ∀ a, a ∈ r → a = x ∨ tc edge x a.
Proof.
  rewrite get_ancestor_ids_unfold. case_decide.
  - intros [= <-] a Ha. left. by apply list_elem_of_singleton in Ha.
  - rewrite ancestors_loop_acc.
    destruct (ancestors_loop fuel categories [] x) as [tail|] eqn:Hloop;
      [|done].
    intros [= <-] a [->|Ha]%elem_of_cons; [by left|right].
    by eapply ancestors_loop_sound.
Qed.

Lemma get_descendant_ids_sound fuel root r :
  get_descendant_ids fuel root categories = Some r →
  ∀ x, x ∈ r → tc edge x root.
Proof.
  revert root r. induction fuel as [|fuel IH]; intros root r H x Hx;
    [done|].
  rewrite get_descendant_ids_unfold in H. case_decide.
  { simplify_eq. inversion Hx. }
  destruct (mapM _ _) as [below|] eqn:Hm; [|done]. simpl in H.
  simplify_eq. apply mapM_Some in Hm.
  apply elem_of_app in Hx as [Hx|Hx].
  - apply list_elem_of_fmap in Hx as (c & -> & Hc).
    apply list_elem_of_filter in Hc as [Hp Hc]. apply tc_once. by exists c.
  - apply list_elem_of_join in Hx as (l & Hx & Hl).
    apply list_elem_of_lookup in Hl as [i Hi].
    destruct (Forall2_lookup_r _ _ _ _ _ Hm Hi) as (c & Hc & Hrec).
    apply list_elem_of_lookup_2, list_elem_of_filter in Hc as [Hp Hc].
    eapply tc_r; [by eapply IH|]. by exists c.
Qed.

Lemma get_descendant_ids_complete fuel root r :
  get_descendant_ids fuel root categories = Some r →
  ∀ x, tc edge x root → x ∈ r.
Proof.
  revert root r. induction fuel as [|fuel IH]; intros root r H x Hx;
    [done|].
  rewrite get_descendant_ids_unfold in H. case_decide as Hnil.
  { apply tc_inv_r in Hx as [(c & Hc & _)|(y & _ & c & Hc & _)];
      rewrite Hnil in Hc; inversion Hc. }
  destruct (mapM _ _) as [below|] eqn:Hm; [|done]. simpl in H.
  simplify_eq. apply mapM_Some in Hm. apply elem_of_app.
  apply tc_inv_r in Hx as [(c & Hc & <- & Hp)|(y & Hxy & c & Hc & <- & Hp)].
  - left. apply list_elem_of_fmap. exists c. split; [done|].
    by apply list_elem_of_filter.
  - right. apply list_elem_of_join.
    assert (c ∈ filter (λ c, c_parentId c = Some root) categories) as Hcf
      by (by apply list_elem_of_filter).
    apply list_elem_of_lookup in Hcf as [i Hi].
    destruct (Forall2_lookup_l _ _ _ _ _ Hm Hi) as (l & Hl & Hrec).
    exists l. split; [by eapply IH|]. by eapply list_elem_of_lookup_2.
Qed.

(** A category without descendants: nothing names it as its parent. *)
Lemma get_descendant_ids_nil fuel root :
  get_descendant_ids fuel root categories = Some [] →
  ∀ x, ¬ tc edge x root.
Proof.
  intros H x Hx. eapply get_descendant_ids_complete in Hx; [|done].
  inversion Hx.
Qed.
End walk_results.

Section ancestor_links.
Context (categories : list category).

Lemma ancestors_loop_parent_of fuel cur tail :
  ancestors_loop fuel categories [] cur = Some tail →
  ∀ i a, (cur :: tail) !! i = Some a → tail !! i = parent_of categories a.
Proof.
  revert cur tail. induction fuel as [|fuel IH]; intros cur tail H i a Hi;
    [done|].
  simpl in H. unfold parent_of in *.
  destruct (find_category cur categories) as [c|] eqn:Hfind.
  2: { simplify_eq. destruct i; simplify_eq/=. by rewrite Hfind. }
  destruct (c_parentId c) as [p|] eqn:Hp.
  2: { simplify_eq. destruct i; simplify_eq/=. by rewrite Hfind, Hp. }
  destruct (truthy p) eqn:Htruthy.
  2: { simplify_eq. destruct i; simplify_eq/=.
       by rewrite Hfind, Hp, Htruthy. }
  rewrite ancestors_loop_acc in H.
  destruct (ancestors_loop fuel categories [] p) as [tail_p|] eqn:Hloop;
    [|done].
  simpl in H. simplify_eq. destruct i as [|i]; simpl in *.
  - simplify_eq. by rewrite Hfind, Hp, Htruthy.
  - by eapply IH.
Qed.

Lemma parent_of_edge a p :
  parent_of categories a = Some p → parent_edge categories a p.
Proof.
  unfold parent_of.
  destruct (find_category a categories) as [c|] eqn:Hfind; [|done].
  apply find_category_Some in Hfind as [Hc Hid].
  destruct (c_parentId c) as [p'|] eqn:Hp; [|done].
  destruct (truthy p'); [|done]. intros [= <-]. by exists c.
Qed.

Lemma ancestors_loop_NoDup fuel cur tail :
  acyclic categories →
  ancestors_loop fuel categories [] cur = Some tail →
  NoDup (cur :: tail).
Proof.
  intros Hacyclic. revert cur tail.
  induction fuel as [|fuel IH]; intros cur tail H; [done|].
  pose proof (ancestors_loop_sound _ _ _ _ H) as Hup.
  constructor.
  { intros Hin. by apply (Hacyclic cur), Hup. }
  simpl in H.
  destruct (find_category cur categories) as [c|]; [|simplify_eq; constructor].
  destruct (c_parentId c) as [p|]; [|simplify_eq; constructor].
  destruct (truthy p); [|simplify_eq; constructor].
  rewrite ancestors_loop_acc in H.
  destruct (ancestors_loop fuel categories [] p) as [tail_p|] eqn:Hloop;
    [|done].
  simpl in H. simplify_eq. by eapply IH.
Qed.
End ancestor_links.

(** The shape of the ancestor chain: it starts with the id asked for and
    goes from each id to the parent the loop moves to. *)
Lemma get_ancestor_ids_links categories fuel x chain :
  get_ancestor_ids fuel x categories = Some chain →
  chain !! 0 = Some x
  ∧ ∀ i a, chain !! i = Some a → chain !! S i = parent_of categories a.
Proof.
  rewrite get_ancestor_ids_unfold. case_decide as Hnil.
  - intros [= <-]. subst categories. split; [done|].
    intros [|i] a Hi; simplify_eq/=; done.
  - rewrite ancestors_loop_acc.
    destruct (ancestors_loop fuel categories [] x) as [tail|] eqn:Hloop;
      [|done].
    intros [= <-]. split; [done|].
    by apply (ancestors_loop_parent_of _ _ _ _ Hloop).
Qed.

(** Where the loop stops: at an id without category, or at a category
    without parent id, or with the empty string for it. *)
Lemma parent_of_None categories a :
  parent_of categories a = None →
  find_category a categories = None
  ∨ ∃ c, find_category a categories = Some c
         ∧ (c_parentId c = None ∨ c_parentId c = Some "").
Proof.
  unfold parent_of.
  destruct (find_category a categories) as [c|]; [|by left].
  intros Hp. right. exists c. split; [done|].
  destruct (c_parentId c) as [p|]; [|by left]. right.
  unfold truthy in Hp. case_bool_decide; [by subst|done].
Qed.

Lemma get_ancestor_ids_NoDup_bound categories fuel x chain :
  acyclic categories →
  get_ancestor_ids fuel x categories = Some chain →
  NoDup chain ∧ length chain ≤ S (length categories).
Proof.
  intros Hacyclic. rewrite get_ancestor_ids_unfold. case_decide as Hnil.
  { intros [= <-]. split; [apply NoDup_singleton|simpl; lia]. }
  rewrite ancestors_loop_acc.
  destruct (ancestors_loop fuel categories [] x) as [tail|] eqn:Hloop;
    [|done].
  intros [= <-]. simpl.
  pose proof (ancestors_loop_NoDup _ _ _ _ Hacyclic Hloop) as Hnd.
  split; [done|].
  pose proof (ancestors_loop_parent_of _ _ _ _ Hloop) as Hlinks.
  cut (length (take (length tail) (x :: tail)) ≤ length categories).
  { rewrite length_take. simpl. lia. }
  apply distinct_ids_bound.
  - eapply sublist_NoDup; [done|apply sublist_take].
  - intros a Ha. apply list_elem_of_lookup in Ha as [i Hi].
    apply lookup_take_Some in Hi as [Hi Hlt].
    apply Hlinks in Hi.
    destruct (lookup_lt_is_Some_2 tail i Hlt) as [p Hp].
    rewrite Hp in Hi. symmetry in Hi.
    eapply edge_child_in. by apply parent_of_edge.
Qed.

(** ** C2: termination of the two walks *)

Lemma ancestors_loop_self_parent fuel acc :
  ancestors_loop fuel [catLoop] acc "L" = None.
Proof. revert acc. induction fuel as [|fuel IH]; intros acc; [done|]. apply IH. Qed.

Lemma get_descendant_ids_self_parent fuel :
  get_descendant_ids fuel "L" [catLoop] = None.
Proof. induction fuel as [|fuel IH]; [done|]. simpl. by rewrite IH. Qed.

(** C2, as stated, fails: on the one-category list whose category names
    itself as its parent, neither walk returns, whatever the fuel. *)
Lemma C2_walks_diverge_on_self_parent :
  ¬ (∃ fuel r, get_ancestor_ids fuel "L" [catLoop] = Some r)
  ∧ ¬ (∃ fuel r, get_descendant_ids fuel "L" [catLoop] = Some r).
Proof.
  split; intros (fuel & r & H).
  - unfold get_ancestor_ids in H.
    by rewrite ancestors_loop_self_parent in H.
  - by rewrite get_descendant_ids_self_parent in H.
Qed.

(** C2, amended: on a category list without a cycle (parents that are
    missing from the list are allowed) both walks return, from every
    start id: the loop of [get_ancestor_ids] within
    [length categories + 1] iterations and [get_descendant_ids] within
    recursion depth [length categories + 1].  The ancestor chain starts
    with the id asked for, goes from each id to the parent id of the
    first category with that id, and stops at an id that has no
    category in the list (a missing parent) or whose category has no
    parent id (none, or the empty string); it has no id twice, so that
    no category is visited more than once.  The descendant walk returns
    the ids from which the parent links lead to the start id. *)
Theorem C2_walks_return_when_acyclic categories x fuel :
  acyclic categories → length categories < fuel →
  (∃ chain stop,
     get_ancestor_ids fuel x categories = Some chain
     ∧ chain !! 0 = Some x
     ∧ (∀ i a, chain !! i = Some a →
               chain !! S i = parent_of categories a)
     ∧ last chain = Some stop
     ∧ (find_category stop categories = None
        ∨ ∃ c, find_category stop categories = Some c
               ∧ (c_parentId c = None ∨ c_parentId c = Some ""))
     ∧ NoDup chain
     ∧ length chain ≤ S (length categories))
  ∧ (∃ below,
       get_descendant_ids fuel x categories = Some below
       ∧ ∀ y, y ∈ below ↔ tc (parent_edge categories) y x).
Proof.
  intros Hacyclic Hlen. split.
  - destruct (get_ancestor_ids_returns categories Hacyclic fuel x Hlen)
      as [chain Hchain].
    destruct (get_ancestor_ids_links _ _ _ _ Hchain) as [Hhead Hlinks].
    destruct (get_ancestor_ids_NoDup_bound _ _ _ _ Hacyclic Hchain)
      as [Hnd Hbound].
    destruct (last chain) as [stop|] eqn:Hlast.
    2: { apply last_None in Hlast. by subst chain. }
    exists chain, stop. split_and!; try done.
    apply parent_of_None. rewrite last_lookup in Hlast.
    rewrite <-(Hlinks _ _ Hlast). apply lookup_ge_None. lia.
  - destruct (get_descendant_ids_returns categories Hacyclic fuel x Hlen)
      as [below Hbelow].
    exists below. split; [done|]. intros y. split.
    + by eapply get_descendant_ids_sound.
    + by eapply get_descendant_ids_complete.
Qed.

Lemma C2_walks_return_when_acyclic_witness :
  (∃ chain stop,
     get_ancestor_ids 3 "C" treeDangling = Some chain
     ∧ chain !! 0 = Some "C"
     ∧ (∀ i a, chain !! i = Some a →
               chain !! S i = parent_of treeDangling a)
     ∧ last chain = Some stop
     ∧ (find_category stop treeDangling = None
        ∨ ∃ c, find_category stop treeDangling = Some c
               ∧ (c_parentId c = None ∨ c_parentId c = Some ""))
     ∧ NoDup chain
     ∧ length chain ≤ S (length treeDangling))
  ∧ (∃ below,
       get_descendant_ids 3 "C" treeDangling = Some below
       ∧ ∀ y, y ∈ below ↔ tc (parent_edge treeDangling) y "C").
Proof.
  apply (C2_walks_return_when_acyclic treeDangling "C" 3).
  - apply (parents_first_acyclic ["gone"; "B"; "C"]). reflexivity.
  - simpl. lia.
Defined.

(** ** C1: toggling a category on a selection *)

Lemma selected_true item_ids it :
  selected item_ids it = true ↔ i_id it ∈ item_ids.
Proof. unfold selected. by rewrite bool_decide_eq_true. Qed.

Lemma selected_false item_ids it :
  selected item_ids it = false ↔ i_id it ∉ item_ids.
Proof. unfold selected. by rewrite bool_decide_eq_false. Qed.

(** The test the function makes once, before touching any item. *)
Lemma all_have_category_spec items item_ids c :
  forallb (λ it, bool_decide (c ∈ i_categoryIds it))
          (List.filter (selected item_ids) items) = true
  ↔ all_selected_have items item_ids c.
Proof.
  rewrite forallb_forall. unfold all_selected_have. split.
  - intros H it Hit Hsel. specialize (H it).
    rewrite filter_In, selected_true, <-list_elem_of_In in H.
    rewrite bool_decide_eq_true in H. by apply H.
  - intros H it [Hit Hsel]%filter_In. rewrite bool_decide_eq_true. apply H.
    + by apply list_elem_of_In.
    + by apply selected_true.
Qed.

(** C1: on an acyclic category list the toggle returns, and what it
    returns follows one decision taken for the whole selection.  With
    [descendants] the result of [get_descendant_ids] (the ids that
    reach [c] through parent links) and [chain] the result of
    [get_ancestor_ids] ([c] itself, then from each id the parent id of
    the first category with that id, as far as there is one): items
    that are not selected come back as they were; a selected item comes
    back with only its category ids changed, and
    - when every selected item holds [c] (removal): it loses [c] and the
      descendants of [c] if there are descendants, only [c] otherwise,
      and keeps every ancestor of [c] it had;
    - otherwise (addition): it gains only [c] if [c] has descendants,
      and the whole ancestor chain of [c] (with [c]) otherwise. *)
Theorem C1_toggle_decides_once categories items item_ids c fuel :
  acyclic categories → length categories < fuel →
  ∃ descendants chain items',
    get_descendant_ids fuel c categories = Some descendants
    ∧ get_ancestor_ids fuel c categories = Some chain
    ∧ (∀ x, x ∈ descendants ↔ tc (parent_edge categories) x c)
    ∧ chain !! 0 = Some c
    ∧ (∀ i a, chain !! i = Some a →
              chain !! S i = parent_of categories a)
    ∧ toggle_category_association fuel items item_ids c categories
      = Some items'
    ∧ length items' = length items
    ∧ ∀ i it, items !! i = Some it →
        (i_id it ∉ item_ids → items' !! i = Some it)
        ∧ (i_id it ∈ item_ids →
           ∃ ids,
             items' !! i = Some (with_categoryIds it ids) ∧ NoDup ids
             ∧ (all_selected_have items item_ids c → descendants ≠ [] →
                ∀ x, x ∈ ids ↔
                     x ∈ i_categoryIds it ∧ x ≠ c ∧ x ∉ descendants)
             ∧ (all_selected_have items item_ids c → descendants = [] →
                ∀ x, x ∈ ids ↔ x ∈ i_categoryIds it ∧ x ≠ c)
             ∧ (all_selected_have items item_ids c →
                ∀ a, tc (parent_edge categories) c a →
                     a ∈ i_categoryIds it → a ∈ ids)
             ∧ (¬ all_selected_have items item_ids c → descendants ≠ [] →
                ∀ x, x ∈ ids ↔ x ∈ i_categoryIds it ∨ x = c)
             ∧ (¬ all_selected_have items item_ids c → descendants = [] →
                ∀ x, x ∈ ids ↔ x ∈ i_categoryIds it ∨ x ∈ chain)).
Proof.
  intros Hacyclic Hlen.
  destruct (get_descendant_ids_returns categories Hacyclic fuel c Hlen)
    as [descendants Hdesc].
  destruct (get_ancestor_ids_returns categories Hacyclic fuel c Hlen)
    as [chain Hchain].
  assert (∀ x, x ∈ descendants ↔ tc (parent_edge categories) x c) as Hds.
  { intros x. split.
    - by eapply get_descendant_ids_sound.
    - by eapply get_descendant_ids_complete. }
  destruct (get_ancestor_ids_links _ _ _ _ Hchain) as [Hhead Hlinks].
  exists descendants, chain. unfold toggle_category_association.
  rewrite Hdesc. simpl.
  destruct (forallb _ _) eqn:Hall.
  - (* removal *)
    apply all_have_category_spec in Hall. eexists. split_and!; [done..| |].
    { by rewrite length_fmap. }
    intros i it Hi. rewrite list_lookup_fmap, Hi. simpl. split.
    + intros Hsel%selected_false. by rewrite Hsel.
    + intros Hsel%selected_true. rewrite Hsel. eexists.
      split; [done|]. split; [apply NoDup_elements|].
      split_and!; try done.
      * intros _ Hne x. destruct descendants; [done|].
        rewrite elem_of_elements. set_solver.
      * intros _ -> x. rewrite elem_of_elements. set_solver.
      * intros _ a Ha Hin. rewrite elem_of_elements.
        assert (a ≠ c) by (intros ->; by apply (Hacyclic c)).
        assert (a ∉ descendants).
        { intros Had%Hds. apply (Hacyclic a). by eapply tc_trans. }
        destruct descendants; set_solver.
  - (* addition *)
    assert (¬ all_selected_have items item_ids c) as Hnall.
    { intros H%all_have_category_spec. congruence. }
    destruct descendants as [|d ds]; simpl.
    + rewrite Hchain. simpl. eexists. split_and!; [done..| |].
      { by rewrite length_fmap. }
      intros i it Hi. rewrite list_lookup_fmap, Hi. simpl. split.
      * intros Hsel%selected_false. by rewrite Hsel.
      * intros Hsel%selected_true. rewrite Hsel. eexists.
        split; [done|]. split; [apply NoDup_elements|].
        split_and!; try done.
        intros _ _ x. rewrite elem_of_elements. set_solver.
    + eexists. split_and!; [done..| |].
      { by rewrite length_fmap. }
      intros i it Hi. rewrite list_lookup_fmap, Hi. simpl. split.
      * intros Hsel%selected_false. by rewrite Hsel.
      * intros Hsel%selected_true. rewrite Hsel. eexists.
        split; [done|]. split; [apply NoDup_elements|].
        split_and!; try done.
        intros _ _ x. rewrite elem_of_elements. set_solver.
Qed.

Lemma C1_toggle_decides_once_witness :
  ∃ items' it',
    toggle_category_association 4 [mk_item "I2" ["A"]] ["I2"] "C" treeABC
    = Some items'
    ∧ items' !! 0 = Some it'
    ∧ "C" ∈ i_categoryIds it' ∧ "B" ∈ i_categoryIds it'
    ∧ "A" ∈ i_categoryIds it'.
Proof.
  destruct (C1_toggle_decides_once
              treeABC [mk_item "I2" ["A"]] ["I2"] "C" 4)
    as (descendants & chain & items' & Hdesc & _ & _ & Hhead & Hlinks
        & Htoggle & _ & Hitems).
  - apply (parents_first_acyclic ["A"; "B"; "C"]). reflexivity.
  - simpl. lia.
  - destruct (Hitems 0 (mk_item "I2" ["A"]) eq_refl) as [_ Hselected].
    destruct Hselected as (ids & Hlookup & _ & _ & _ & _ & _ & Hadd);
      [by left|].
    vm_compute in Hdesc. injection Hdesc as <-.
    assert (¬ all_selected_have [mk_item "I2" ["A"]] ["I2"] "C") as Hnall.
    { intros Hall. specialize (Hall (mk_item "I2" ["A"])). simpl in Hall.
      assert ("C" ∈ ["A"]) as Hin by (apply Hall; by left).
      apply list_elem_of_singleton in Hin. discriminate. }
    specialize (Hadd Hnall eq_refl).
    pose proof (Hlinks 0 "C" Hhead) as Hparent.
    exists items', (with_categoryIds (mk_item "I2" ["A"]) ids).
    split; [exact Htoggle|]. split; [exact Hlookup|]. simpl. split_and!.
    + apply Hadd. right. by eapply list_elem_of_lookup_2.
    + apply Hadd. right. by eapply list_elem_of_lookup_2.
    + apply Hadd. left. by left.
Defined.

(** ** C3: toggling twice *)

Lemma toggle_removal fuel items item_ids c categories descendants :
  all_selected_have items item_ids c →
  get_descendant_ids fuel c categories = Some descendants →
  toggle_category_association fuel items item_ids c categories
  = Some ((λ it,
             if selected item_ids it then
               with_categoryIds it
                 (elements
                    (list_to_set (i_categoryIds it)
                     ∖ match descendants with
                       | _ :: _ => list_to_set ([c] ++ descendants)
                       | [] => list_to_set [c]
                       end : gset string))
             else it) <$> items).
Proof.
  intros Hall%all_have_category_spec Hdesc.
  unfold toggle_category_association. by rewrite Hall, Hdesc.
Qed.

Lemma toggle_addition_leaf fuel items item_ids c categories chain :
  ¬ all_selected_have items item_ids c →
  get_descendant_ids fuel c categories = Some [] →
  get_ancestor_ids fuel c categories = Some chain →
  toggle_category_association fuel items item_ids c categories
  = Some ((λ it,
             if selected item_ids it then
               with_categoryIds it
                 (elements
                    (list_to_set (i_categoryIds it) ∪ list_to_set chain
                     : gset string))
             else it) <$> items).
Proof.
  intros Hnall Hdesc Hchain. unfold toggle_category_association.
  destruct (forallb _ _) eqn:Hall.
  { by apply all_have_category_spec in Hall. }
  by rewrite Hdesc; simpl; rewrite Hchain.
Qed.

(** C3, as stated, fails for a category without children.  In the tree
    A -> B -> C, take one item tagged with the leaf C only: the first
    toggle of C removes it, the second adds C together with its
    ancestors, so the item ends with A, which it never had. *)
Lemma C3_round_trip_fails_on_leaf :
  acyclic treeABC
  ∧ get_descendant_ids 4 "C" treeABC = Some []
  ∧ ∃ items1 items2 it2,
      toggle_category_association 4 [mk_item "I" ["C"]] ["I"] "C" treeABC
      = Some items1
      ∧ toggle_category_association 4 items1 ["I"] "C" treeABC
        = Some items2
      ∧ items2 !! 0 = Some it2
      ∧ "A" ∈ i_categoryIds it2
      ∧ "A" ∉ i_categoryIds (mk_item "I" ["C"]).
Proof.
  split; [apply treeABC_acyclic|].
  split; [reflexivity|]. eexists _, _, _.
  split; [vm_compute; reflexivity|]. split; [vm_compute; reflexivity|].
  split; [reflexivity|]. split.
  - simpl. set_solver.
  - simpl. set_solver.
Qed.

Lemma selected_with_categoryIds item_ids it ids :
  selected item_ids (with_categoryIds it ids) = selected item_ids it.
Proof. reflexivity. Qed.

Lemma all_selected_have_dec items item_ids c :
  all_selected_have items item_ids c ∨ ¬ all_selected_have items item_ids c.
Proof.
  destruct (forallb (λ it, bool_decide (c ∈ i_categoryIds it))
                    (List.filter (selected item_ids) items)) eqn:Hall.
  - left. by apply all_have_category_spec.
  - right. intros H%all_have_category_spec. congruence.
Qed.

Lemma some_selected_dec (items : list item) (item_ids : list string) :
  (∃ it, it ∈ items ∧ i_id it ∈ item_ids)
  ∨ ¬ (∃ it, it ∈ items ∧ i_id it ∈ item_ids).
Proof.
  destruct (decide (Exists (λ it, i_id it ∈ item_ids) items)) as [H|H];
    rewrite Exists_exists in H; [by left|by right].
Qed.

(** C3, amended: on an acyclic category list and for a category [c]
    without descendants, two toggles in a row return (the items outside
    the selection untouched), and a selected item gets its original set
    of category ids back exactly when it held every other id of the
    ancestor chain of [c] and, in addition, either every selected item
    held [c] or this item did not.  Nothing is promised when [c] has
    descendants. *)
Theorem C3_toggle_twice_on_leaf categories items item_ids c fuel :
  acyclic categories → length categories < fuel →
  get_descendant_ids fuel c categories = Some [] →
  ∃ chain items1 items2,
    get_ancestor_ids fuel c categories = Some chain
    ∧ toggle_category_association fuel items item_ids c categories
      = Some items1
    ∧ toggle_category_association fuel items1 item_ids c categories
      = Some items2
    ∧ ∀ i it, items !! i = Some it →
        (i_id it ∉ item_ids → items2 !! i = Some it)
        ∧ (i_id it ∈ item_ids →
           ∃ ids,
             items2 !! i = Some (with_categoryIds it ids)
             ∧ ((∀ x, x ∈ ids ↔ x ∈ i_categoryIds it)
                ↔ (∀ a, a ∈ chain → a ≠ c → a ∈ i_categoryIds it)
                  ∧ (all_selected_have items item_ids c
                     ∨ c ∉ i_categoryIds it))).
Proof.
  intros Hacyclic Hlen Hdesc.
  destruct (get_ancestor_ids_returns categories Hacyclic fuel c Hlen)
    as [chain Hchain].
  destruct (get_ancestor_ids_head _ _ _ _ Hchain) as [tail ->].
  exists (c :: tail).
  destruct (all_selected_have_dec items item_ids c) as [Hall|Hnall].
  - (* the first toggle removes c *)
    rewrite (toggle_removal _ _ _ _ _ _ Hall Hdesc).
    set (items1 := _ <$> items). exists items1.
    destruct (some_selected_dec items item_ids)
      as [(it0 & Hit0 & Hsel0)|Hnone].
    + (* the second toggle adds the chain *)
      assert (¬ all_selected_have items1 item_ids c) as Hnall1.
      { intros H1. apply list_elem_of_lookup in Hit0 as [i0 Hi0].
        specialize (H1 (with_categoryIds it0
          (elements (list_to_set (i_categoryIds it0) ∖ list_to_set [c]
                     : gset string)))).
        simpl in H1. rewrite elem_of_elements in H1.
        cut (c ∈ (list_to_set (i_categoryIds it0) ∖ list_to_set [c]
                  : gset string)); [set_solver|].
        apply H1; [|done]. apply list_elem_of_lookup. exists i0.
        subst items1. rewrite list_lookup_fmap, Hi0. simpl.
        apply selected_true in Hsel0. by rewrite Hsel0. }
      rewrite (toggle_addition_leaf _ _ _ _ _ _ Hnall1 Hdesc Hchain).
      eexists. split_and!; [done..|].
      intros i it Hi. subst items1.
      rewrite !list_lookup_fmap, Hi. simpl. split.
      * intros Hsel%selected_false. by rewrite !Hsel.
      * intros Hin. pose proof Hin as Hsel%selected_true.
        rewrite Hsel, selected_with_categoryIds, Hsel. eexists. split; [done|].
        assert (c ∈ i_categoryIds it) as Hc.
        { apply Hall; [|done]. by eapply list_elem_of_lookup_2. }
        split.
        -- intros Heq. simpl in Heq. split; [|by left].
           intros a Ha _. apply Heq. set_solver.
        -- intros [Hanc _] x. simpl.
           destruct (decide (x = c)) as [->|Hne]; [set_solver|].
           specialize (Hanc x). set_solver.
    + (* nothing is selected: both toggles leave the list as it is *)
      assert (all_selected_have items1 item_ids c) as Hall1.
      { intros it1 Hit1 Hsel1. exfalso. apply Hnone.
        subst items1. apply list_elem_of_fmap in Hit1 as (it & -> & Hit).
        exists it. split; [done|].
        destruct (selected item_ids it) eqn:Hs; [by apply selected_true|].
        done. }
      rewrite (toggle_removal _ _ _ _ _ _ Hall1 Hdesc).
      eexists. split_and!; [done..|].
      intros i it Hi. subst items1.
      rewrite !list_lookup_fmap, Hi. simpl. split.
      * intros Hsel%selected_false. by rewrite !Hsel.
      * intros Hin. exfalso. apply Hnone. exists it.
        split; [by eapply list_elem_of_lookup_2|done].
  - (* the first toggle adds the chain, the second removes c *)
    rewrite (toggle_addition_leaf _ _ _ _ _ _ Hnall Hdesc Hchain).
    set (items1 := _ <$> items). exists items1.
    assert (all_selected_have items1 item_ids c) as Hall1.
    { intros it1 Hit1 Hsel1. subst items1.
      apply list_elem_of_fmap in Hit1 as (it & -> & Hit).
      destruct (selected item_ids it) eqn:Hs.
      - simpl. rewrite elem_of_elements. set_solver.
      - apply selected_false in Hs. done. }
    rewrite (toggle_removal _ _ _ _ _ _ Hall1 Hdesc).
    eexists. split_and!; [done..|].
    intros i it Hi. subst items1.
    rewrite !list_lookup_fmap, Hi. simpl. split.
    + intros Hsel%selected_false. by rewrite !Hsel.
    + intros Hin. pose proof Hin as Hsel%selected_true.
      rewrite Hsel, selected_with_categoryIds, Hsel. eexists. split; [done|]. split.
      * intros Heq. simpl in Heq.
        assert (c ∉ i_categoryIds it) as Hc.
        { intros Hc%Heq. set_solver. }
        split; [|by right]. intros a Ha Hne. apply Heq. set_solver.
      * intros [Hanc [?|Hc]] x; [done|]. simpl.
        destruct (decide (x = c)) as [->|Hne]; [set_solver|].
        specialize (Hanc x). set_solver.
Qed.

Lemma C3_toggle_twice_on_leaf_witness :
  ∃ items2,
    (toggle_category_association 4 [mk_item "I" ["C"; "B"; "A"]] ["I"] "C"
                                 treeABC
     ≫= λ items1, toggle_category_association 4 items1 ["I"] "C" treeABC)
    = Some items2.
Proof.
  destruct (C3_toggle_twice_on_leaf
              treeABC [mk_item "I" ["C"; "B"; "A"]] ["I"] "C" 4)
    as (chain & items1 & items2 & _ & H1 & H2 & _).
  - apply (parents_first_acyclic ["A"; "B"; "C"]). reflexivity.
  - simpl. lia.
  - reflexivity.
  - exists items2. rewrite H1. exact H2.
Defined.

(** ** C5: removing one category from one item *)

Section remove_category.
Context (items : list item) (item_id category_id : string).

Local Abbreviation loop :=
  (remove_category_loop items).

(** An error always comes with the input list. *)
Lemma remove_category_loop_error rest item_found updated_items items' e :
  loop rest item_id category_id item_found updated_items
  = (items', Some e) →
  items' = items.
Proof.
  revert item_found updated_items.
  induction rest as [|it rest IH]; intros item_found updated_items; simpl.
  - destruct item_found; by intros [= <- _].
  - repeat case_match; try (by intros [= <- _]); apply IH.
Qed.

(** Items with another id are copied over. *)
Lemma remove_category_loop_skip pre rest item_found updated_items :
  (∀ it, it ∈ pre → i_id it ≠ item_id) →
  loop (pre ++ rest) item_id category_id item_found updated_items
  = loop rest item_id category_id item_found (updated_items ++ pre).
Proof.
  revert updated_items.
  induction pre as [|it pre IH]; intros updated_items Hpre; simpl.
  - by rewrite app_nil_r.
  - rewrite bool_decide_eq_false_2 by (apply Hpre; by left).
    rewrite IH by (intros it' ?; apply Hpre; by right).
    by rewrite <-app_assoc.
Qed.

Lemma remove_category_from_item_not_found :
  (∀ it, it ∈ items → i_id it ≠ item_id) →
  remove_category_from_item items item_id category_id
  = (items, Some (MsgNoSuchItem item_id)).
Proof.
  intros Hnone. unfold remove_category_from_item.
  rewrite <-(app_nil_r items) at 2.
  by rewrite remove_category_loop_skip.
Qed.

Lemma remove_category_from_item_first pre it post :
  items = pre ++ it :: post →
  (∀ it', it' ∈ pre → i_id it' ≠ item_id) → i_id it = item_id →
  remove_category_from_item items item_id category_id
  = if bool_decide (category_id ∈ i_categoryIds it) then
      if bool_decide
           (List.filter (λ cid, negb (bool_decide (cid = category_id)))
                        (i_categoryIds it) = [])
      then (items, Some MsgLastCategory)
      else
        loop post item_id category_id true
          (pre ++ [with_categoryIds it
                     (List.filter
                        (λ cid, negb (bool_decide (cid = category_id)))
                        (i_categoryIds it))])
    else (items, Some (MsgNoSuchCategoryOnItem category_id)).
Proof.
  intros Hitems Hpre Hid. unfold remove_category_from_item.
  rewrite Hitems at 2. rewrite remove_category_loop_skip by done.
  simpl. rewrite bool_decide_eq_true_2 by done.
  destruct (bool_decide (category_id ∈ i_categoryIds it)); simpl; [|done].
  destruct (List.filter _ (i_categoryIds it)) as [|x l]; simpl; done.
Qed.
End remove_category.

(** Removing [category_id] leaves nothing when the list has no other id. *)
Lemma filter_other_nil (category_id : string) (ids : list string) :
  List.filter (λ cid, negb (bool_decide (cid = category_id))) ids = []
  ↔ ∀ x, x ∈ ids → x = category_id.
Proof.
  induction ids as [|y ids IH]; simpl.
  - split; [by inversion 2|done].
  - destruct (bool_decide_reflect (y = category_id)) as [->|Hne]; simpl.
    + rewrite IH. set_solver.
    + split; [done|]. intros H. destruct Hne. apply H. by left.
Qed.

(** C5: [remove_category_from_item] answers with the input list and
    - a [NotFound] message when no item has the id,
    - an [InvalidCategory] message when the item with that id (the first
      one in the list) does not hold the category,
    - a [LastCategory] message when that item holds the category and
      holds no other, in particular when the category is the only entry
      of its [categoryIds];
    and whenever it answers with an error, the list it returns is the
    input list. *)
Theorem C5_remove_category_from_item_errors items item_id category_id :
  ((∀ it, it ∈ items → i_id it ≠ item_id) →
   remove_category_from_item items item_id category_id
   = (items, Some (MsgNoSuchItem item_id))
   ∧ kind_of (MsgNoSuchItem item_id) = NotFound)
  ∧ (∀ pre it post,
       items = pre ++ it :: post →
       (∀ it', it' ∈ pre → i_id it' ≠ item_id) → i_id it = item_id →
       (category_id ∉ i_categoryIds it →
        remove_category_from_item items item_id category_id
        = (items, Some (MsgNoSuchCategoryOnItem category_id))
        ∧ kind_of (MsgNoSuchCategoryOnItem category_id) = InvalidCategory)
       ∧ (category_id ∈ i_categoryIds it →
          (∀ x, x ∈ i_categoryIds it → x = category_id) →
          remove_category_from_item items item_id category_id
          = (items, Some MsgLastCategory)
          ∧ kind_of MsgLastCategory = LastCategory)
       ∧ (i_categoryIds it = [category_id] →
          remove_category_from_item items item_id category_id
          = (items, Some MsgLastCategory)))
  ∧ (∀ items' e,
       remove_category_from_item items item_id category_id
       = (items', Some e) →
       items' = items).
Proof.
  split_and!.
  - intros Hnone. split; [|done].
    by apply remove_category_from_item_not_found.
  - intros pre it post Hitems Hpre Hid.
    pose proof (remove_category_from_item_first
                  items item_id category_id pre it post Hitems Hpre Hid)
      as Hfirst.
    split_and!.
    + intros Hnot. split; [|done]. rewrite Hfirst.
      by rewrite bool_decide_eq_false_2.
    + intros Hin Honly. split; [|done]. rewrite Hfirst.
      rewrite bool_decide_eq_true_2 by done.
      by rewrite bool_decide_eq_true_2 by (by apply filter_other_nil).
    + intros Hone. rewrite Hfirst.
      rewrite bool_decide_eq_true_2 by (rewrite Hone; by left).
      rewrite bool_decide_eq_true_2; [done|].
      apply filter_other_nil. rewrite Hone. set_solver.
  - intros items' e. apply remove_category_loop_error.
Qed.

Lemma C5_remove_category_from_item_errors_witness :
  remove_category_from_item [mk_item "I1" ["C"; "B"]; mk_item "I2" ["A"]]
                            "I2" "A"
  = ([mk_item "I1" ["C"; "B"]; mk_item "I2" ["A"]], Some MsgLastCategory).
Proof.
  destruct (C5_remove_category_from_item_errors
              [mk_item "I1" ["C"; "B"]; mk_item "I2" ["A"]] "I2" "A")
    as (_ & Hfirst & _).
  destruct (Hfirst [mk_item "I1" ["C"; "B"]] (mk_item "I2" ["A"]) [])
    as (_ & _ & Hlast).
  - reflexivity.
  - intros it' Hit'. apply list_elem_of_singleton in Hit'. by subst.
  - reflexivity.
  - apply Hlast. reflexivity.
Defined.

(** ** C4: removing categories from a selection *)

Lemma filter_length_eq {A} (f : A → bool) (l : list A) :
  length (List.filter f l) = length l ↔ List.filter f l = l.
Proof.
  split; [|by intros ->].
  induction l as [|a l IH]; simpl; [done|].
  pose proof (List.filter_length_le f l).
  destruct (f a); simpl; intros Hlen; [|lia].
  f_equal. apply IH. lia.
Qed.

Section batch_remove.
Context (item_ids category_ids : list string).

Lemma remaining_via_set it :
  List.filter
    (λ cid, negb (bool_decide
                    (cid ∈ (list_to_set category_ids : gset string))))
    (i_categoryIds it)
  = remaining_category_ids category_ids it.
Proof.
  unfold remaining_category_ids. apply List.filter_ext. intros cid.
  f_equal. apply bool_decide_ext. set_solver.
Qed.

(** The loop applies [batch_remove_one] to each item and counts the
    items that [actually_modified] marks. *)
Lemma batch_remove_loop_spec rest updated_items modified_count :
  batch_remove_loop rest item_ids (list_to_set category_ids)
                    updated_items modified_count
  = (updated_items ++ (batch_remove_one item_ids category_ids <$> rest),
     modified_count
     + length (List.filter (actually_modified item_ids category_ids)
                           rest)).
Proof.
  revert updated_items modified_count.
  induction rest as [|it rest IH]; intros updated_items modified_count.
  { simpl. by rewrite app_nil_r, Nat.add_0_r. }
  simpl. rewrite remaining_via_set.
  assert (actually_modified item_ids category_ids it
          = selected item_ids it
            && negb (bool_decide
                       (remaining_category_ids category_ids it = []))
            && negb (bool_decide
                       (length (remaining_category_ids category_ids it)
                        = length (i_categoryIds it)))) as ->.
  { unfold actually_modified. do 2 f_equal. apply bool_decide_ext.
    symmetry. apply filter_length_eq. }
  unfold batch_remove_one.
  destruct (selected item_ids it); simpl.
  - destruct (remaining_category_ids category_ids it) as [|x l] eqn:Hrem.
    + simpl. rewrite IH. by rewrite <-app_assoc.
    + rewrite bool_decide_eq_false_2 by done.
      rewrite IH, <-app_assoc. simpl negb. rewrite andb_true_l.
      f_equal.
      destruct (decide (length (x :: l) = length (i_categoryIds it)))
        as [Hlen|Hlen].
      * rewrite bool_decide_eq_false_2 by (by intros ?).
        by rewrite bool_decide_eq_true_2 by done.
      * rewrite bool_decide_eq_true_2 by done.
        rewrite bool_decide_eq_false_2 by done. simpl. lia.
  - rewrite IH. by rewrite <-app_assoc.
Qed.

Lemma none_modified items :
  length (List.filter (actually_modified item_ids category_ids) items) = 0
  ↔ ∀ it, it ∈ items → actually_modified item_ids category_ids it = false.
Proof.
  rewrite length_zero_iff_nil. split.
  - intros Hnil it Hit.
    destruct (actually_modified item_ids category_ids it) eqn:Hm; [|done].
    assert (In it (List.filter (actually_modified item_ids category_ids)
                               items)) as Hin.
    { apply filter_In. by rewrite <-list_elem_of_In. }
    rewrite Hnil in Hin. inversion Hin.
  - intros Hnone. induction items as [|it l IH]; simpl; [done|].
    rewrite Hnone by (by left). apply IH. intros it' ?. apply Hnone.
    by right.
Qed.
End batch_remove.

(** C4: [batch_remove_categories] answers with the input list and a
    [MissingInput] message when the list of item ids or the list of
    category ids is empty.  Otherwise each selected item loses the given
    categories, except that an item that would lose all its categories
    is left as it is ([batch_remove_one]); and the answer is the input
    list with the [NoEffect] message exactly when no item was really
    modified, which includes the case where every selected item would
    have lost all its categories. *)
Theorem C4_batch_remove_categories items item_ids category_ids :
  (item_ids = [] ∨ category_ids = [] →
   ∃ m, batch_remove_categories items item_ids category_ids
        = (items, Some m)
        ∧ kind_of m = MissingInput)
  ∧ (item_ids ≠ [] → category_ids ≠ [] →
     ((∃ it, it ∈ items
             ∧ actually_modified item_ids category_ids it = true) →
      batch_remove_categories items item_ids category_ids
      = (batch_remove_one item_ids category_ids <$> items, None))
     ∧ ((∀ it, it ∈ items →
               actually_modified item_ids category_ids it = false) →
        batch_remove_categories items item_ids category_ids
        = (items, Some MsgNothingModified)
        ∧ kind_of MsgNothingModified = NoEffect)
     ∧ ((∀ it, it ∈ items → i_id it ∈ item_ids →
               remaining_category_ids category_ids it = []) →
        batch_remove_categories items item_ids category_ids
        = (items, Some MsgNothingModified)))
  ∧ (∀ it,
       (i_id it ∉ item_ids →
        batch_remove_one item_ids category_ids it = it)
       ∧ (i_id it ∈ item_ids →
          remaining_category_ids category_ids it = [] →
          batch_remove_one item_ids category_ids it = it)
       ∧ (i_id it ∈ item_ids →
          remaining_category_ids category_ids it ≠ [] →
          batch_remove_one item_ids category_ids it
          = with_categoryIds it (remaining_category_ids category_ids it))
       ∧ (∀ x, x ∈ remaining_category_ids category_ids it
               ↔ x ∈ i_categoryIds it ∧ x ∉ category_ids)
       ∧ (actually_modified item_ids category_ids it = true
          ↔ i_id it ∈ item_ids
            ∧ batch_remove_one item_ids category_ids it ≠ it)).
Proof.
  assert (∀ it, with_categoryIds it (i_categoryIds it) = it) as Hsame
    by (by intros []).
  assert (item_ids ≠ [] → category_ids ≠ [] →
          batch_remove_categories items item_ids category_ids
          = if bool_decide
                 (length (List.filter
                            (actually_modified item_ids category_ids) items)
                  = 0)
            then (items, Some MsgNothingModified)
            else (batch_remove_one item_ids category_ids <$> items, None))
    as Hrun.
  { intros Hi Hc. unfold batch_remove_categories.
    destruct item_ids; [done|]. destruct category_ids; [done|].
    by rewrite batch_remove_loop_spec. }
  split_and!.
  - intros [->| ->].
    + exists MsgNoItemIds. split; reflexivity.
    + clear. destruct item_ids.
      * exists MsgNoItemIds. split; reflexivity.
      * exists MsgNoCategoryIds. split; reflexivity.
  - intros Hi Hc. rewrite (Hrun Hi Hc). split_and!.
    + intros (it & Hit & Hm). rewrite bool_decide_eq_false_2; [done|].
      rewrite none_modified. intros Hnone. specialize (Hnone it Hit).
      congruence.
    + intros Hnone. by rewrite bool_decide_eq_true_2 by
        (by apply none_modified).
    + intros Hempty. rewrite bool_decide_eq_true_2; [done|].
      apply none_modified. intros it Hit. unfold actually_modified.
      destruct (selected item_ids it) eqn:Hsel; [|done].
      apply selected_true in Hsel. by rewrite (Hempty it Hit Hsel).
  - intros it. unfold batch_remove_one. split_and!.
    + intros Hsel%selected_false. by rewrite Hsel.
    + intros Hsel%selected_true Hrem. by rewrite Hsel, Hrem.
    + intros Hsel%selected_true Hrem. rewrite Hsel.
      by destruct (remaining_category_ids category_ids it).
    + intros x. unfold remaining_category_ids.
      rewrite list_elem_of_In, filter_In, <-list_elem_of_In.
      by rewrite negb_true_iff, bool_decide_eq_false.
    + unfold actually_modified. rewrite !andb_true_iff, !negb_true_iff.
      rewrite !bool_decide_eq_false, selected_true. split.
      * intros [[Hsel Hne] Hdiff]. split; [done|].
        apply selected_true in Hsel. rewrite Hsel.
        destruct (remaining_category_ids category_ids it) as [|x l];
          [done|].
        intros Heq. apply Hdiff.
        by apply (f_equal i_categoryIds) in Heq.
      * intros [Hsel Hne]. apply selected_true in Hsel as Hsel'.
        rewrite Hsel' in Hne.
        destruct (remaining_category_ids category_ids it) as [|x l];
          [done|].
        split; [done|]. intros Heq. apply Hne. rewrite Heq. apply Hsame.
Qed.

Lemma C4_batch_remove_categories_witness :
  batch_remove_categories [mk_item "I1" ["C"; "B"]; mk_item "I2" ["A"]]
                          ["I1"; "I2"] ["A"; "B"]
  = ([mk_item "I1" ["C"]; mk_item "I2" ["A"]], None).
Proof.
  destruct (C4_batch_remove_categories
              [mk_item "I1" ["C"; "B"]; mk_item "I2" ["A"]]
              ["I1"; "I2"] ["A"; "B"]) as (_ & Hrun & _).
  destruct Hrun as (Hmod & _); [done..|].
  apply Hmod. exists (mk_item "I1" ["C"; "B"]). split; [by left|reflexivity].
Defined.

(** ** C6 and C10: the item filter *)

Section item_filter.
Context (categories : list category) (fuel : nat).
Context (selected_category_ids : list string).

Hypothesis Hreturns :
  ∀ f, f ∈ selected_category_ids →
       is_Some (get_descendant_ids fuel f categories).

Lemma matches_all_filters_spec item_category_ids :
  ∃ b, matches_all_filters fuel item_category_ids categories
                           selected_category_ids = Some b
       ∧ (b = true ↔ under_every_filter fuel categories selected_category_ids
                                       item_category_ids).
Proof.
  clear -Hreturns.
  induction selected_category_ids as [|f sel IH]; simpl.
  { exists true. split; [done|]. split; [|done]. by inversion 2. }
  destruct (Hreturns f) as [below Hbelow]; [by left|].
  rewrite Hbelow. simpl.
  destruct IH as (b & Hb & Hspec).
  { intros f' ?. apply Hreturns. by right. }
  destruct (existsb _ item_category_ids) eqn:Hex.
  - exists b. split; [done|]. rewrite Hspec.
    apply existsb_exists in Hex as (cid & Hcid & Hin).
    apply bool_decide_eq_true in Hin. apply list_elem_of_In in Hcid.
    split.
    + intros Hsel f' [->|Hf']%elem_of_cons; [|by apply Hsel].
      exists below. split; [done|]. exists cid. set_solver.
    + intros Hsel f' Hf'. apply Hsel. by right.
  - exists false. split; [done|]. split; [done|]. intros Hsel.
    destruct (Hsel f) as (below' & Hbelow' & cid & Hcid & Hin);
      [by left|].
    simplify_eq. apply not_true_iff_false in Hex. destruct Hex.
    apply existsb_exists. exists cid. split; [by apply list_elem_of_In|].
    apply bool_decide_eq_true. set_solver.
Qed.

Lemma category_filter_spec items :
  ∃ result,
    category_filter fuel items categories selected_category_ids
    = Some result
    ∧ ∀ it, it ∈ result ↔
            it ∈ items ∧ i_categoryIds it ≠ []
            ∧ under_every_filter fuel categories selected_category_ids
                                 (i_categoryIds it).
Proof.
  induction items as [|it0 items IH].
  { exists []. split; [done|]. intros it. split; [by inversion 1|].
    by intros [? _]. }
  destruct IH as (result & Hresult & Hspec). simpl.
  destruct (i_categoryIds it0) as [|x ids] eqn:Hids.
  - exists result. split; [done|]. intros it. rewrite Hspec, elem_of_cons.
    split; [naive_solver|]. intros ([->|?] & Hne & ?); [congruence|done].
  - destruct (matches_all_filters_spec (x :: ids)) as (b & -> & Hb).
    simpl. rewrite Hresult. simpl. destruct b.
    + exists (it0 :: result). split; [done|]. intros it.
      rewrite !elem_of_cons, Hspec. split.
      * intros [->|?]; [|naive_solver]. rewrite Hids.
        split_and!; [by left|done|]. by apply Hb.
      * naive_solver.
    + exists result. split; [done|]. intros it.
      rewrite Hspec, elem_of_cons. split; [naive_solver|].
      intros ([->|?] & Hne & Hunder); [|done].
      rewrite Hids in Hunder. apply Hb in Hunder. done.
Qed.
End item_filter.

Lemma category_filter_sublist fuel items categories sel result :
  category_filter fuel items categories sel = Some result →
  result `sublist_of` items.
Proof.
  revert result. induction items as [|it items IH]; intros result; simpl.
  { intros [= <-]. constructor. }
  destruct (i_categoryIds it).
  { intros H. apply sublist_cons, IH, H. }
  destruct (matches_all_filters _ _ _ _) as [b|]; [|done]. simpl.
  destruct (category_filter _ _ _ _) as [filtered|]; [|done]. simpl.
  intros [= <-]. destruct b.
  - by apply sublist_skip, IH.
  - by apply sublist_cons, IH.
Qed.

Lemma list_filter_sublist {A} (f : A → bool) (l : list A) :
  List.filter f l `sublist_of` l.
Proof.
  induction l as [|a l IH]; simpl; [constructor|].
  destruct (f a); by constructor.
Qed.



(** C10: whatever the filters, what [filter_items] returns is a
    sub-sequence of the input: the items returned are items of the
    input, in the order of the input.  The call returns on every acyclic
    category list, and on every category list when no category filter is
    given. *)
Theorem C10_filter_items_subsequence
    (str_lower : string → string) fuel items categories sel query :
  (∀ result,
     filter_items str_lower fuel items categories sel query = Some result →
     result `sublist_of` items ∧ ∀ it, it ∈ result → it ∈ items)
  ∧ (acyclic categories → length categories < fuel →
     is_Some (filter_items str_lower fuel items categories sel query))
  ∧ (sel = None ∨ sel = Some [] →
     is_Some (filter_items str_lower fuel items categories sel query)).
Proof.
  assert (∀ result,
            filter_items str_lower fuel items categories sel query
            = Some result →
            result `sublist_of` items) as Hsub.
  { intros result. unfold filter_items.
    assert (∀ kept : list item,
              kept `sublist_of` items →
              Some match query with
                   | Some q =>
                     if truthy q && negb (blank q)
                     then List.filter
                            (matches_query str_lower (str_lower q)) kept
                     else kept
                   | None => kept
                   end = Some result →
              result `sublist_of` items) as Hquery.
    { intros kept Hkept [= <-]. destruct query as [q|]; [|done].
      destruct (truthy q && negb (blank q)); [|done].
      etrans; [apply list_filter_sublist|done]. }
    destruct sel as [[|f sel']|]; simpl; [by apply Hquery| |by apply Hquery].
    destruct (category_filter fuel items categories (f :: sel'))
      as [kept|] eqn:Hcat; [|done].
    simpl. apply Hquery. by eapply category_filter_sublist. }
  split_and!.
  - intros result Hresult. split; [by apply Hsub|].
    intros it Hit. eapply elem_of_sublist; [done|]. by apply Hsub.
  - intros Hacyclic Hlen. unfold filter_items.
    destruct sel as [[|f sel']|]; simpl; [by eexists| |by eexists].
    destruct (category_filter_spec categories fuel (f :: sel'))
      with (items := items) as (result & -> & _); [|by eexists].
    intros f' _. by apply get_descendant_ids_returns.
  - intros [->| ->]; by eexists.
Qed.

Lemma C10_filter_items_subsequence_witness :
  ∃ result,
    filter_items ascii_lower 4 [mk_item "I1" ["C"]; mk_item "I2" ["A"]]
                 treeABC
                 (Some ["B"]) (Some "i1") = Some result
    ∧ result `sublist_of` [mk_item "I1" ["C"]; mk_item "I2" ["A"]].
Proof.
  destruct (C10_filter_items_subsequence ascii_lower
              4 [mk_item "I1" ["C"]; mk_item "I2" ["A"]] treeABC
              (Some ["B"]) (Some "i1")) as (Hsub & Hret & _).
  destruct Hret as [result Hresult].
  - apply (parents_first_acyclic ["A"; "B"; "C"]). reflexivity.
  - simpl. lia.
  - exists result. split; [exact Hresult|]. apply Hsub, Hresult.
Defined.

(** ** C7: the name validator *)

Lemma blank_empty_or_spaces s : negb (truthy s) || blank s = blank s.
Proof. by destruct s. Qed.

Section validate.
Context (item_name : string) (item_type exclude_id : option string).

Lemma excluded_bool it :
  truthy_opt exclude_id && bool_decide (Some (i_id it) = exclude_id)
  = bool_decide (excluded exclude_id it).
Proof.
  destruct (decide (excluded exclude_id it)) as [H|H].
  - rewrite (bool_decide_eq_true_2 _ H). destruct H as [-> Heq].
    by rewrite bool_decide_eq_true_2.
  - rewrite (bool_decide_eq_false_2 _ H).
    destruct (truthy_opt exclude_id) eqn:Ht; [|done]. simpl.
    apply bool_decide_eq_false_2. intros Heq. by apply H.
Qed.

Lemma collides_bool it :
  (if is_text_or_url item_type
   then is_text_or_url (i_type it)
        && bool_decide (i_content it = Some item_name)
   else bool_decide (i_type it = item_type)
        && bool_decide (i_fileName it = Some item_name))
  = bool_decide (collides item_name item_type it).
Proof.
  destruct (decide (collides item_name item_type it)) as [H|H].
  - rewrite (bool_decide_eq_true_2 _ H). unfold collides in H.
    destruct (is_text_or_url item_type); destruct H as [H1 H2].
    + by rewrite H1, bool_decide_eq_true_2.
    + by rewrite !bool_decide_eq_true_2.
  - rewrite (bool_decide_eq_false_2 _ H). unfold collides in H.
    destruct (is_text_or_url item_type).
    + destruct (is_text_or_url (i_type it)); [|done]. simpl.
      apply bool_decide_eq_false_2. naive_solver.
    + apply andb_false_iff.
      destruct (decide (i_type it = item_type)).
      * right. apply bool_decide_eq_false_2. naive_solver.
      * left. by apply bool_decide_eq_false_2.
Qed.

Lemma validate_scan_step it rest :
  validate_scan (it :: rest) item_name item_type exclude_id
  = if bool_decide (excluded exclude_id it)
    then validate_scan rest item_name item_type exclude_id
    else if bool_decide (collides item_name item_type it)
         then Some (if is_text_or_url item_type
                    then MsgDuplicateEntry item_name
                    else MsgDuplicateFile item_name)
         else validate_scan rest item_name item_type exclude_id.
Proof.
  simpl. rewrite excluded_bool.
  destruct (bool_decide (excluded exclude_id it)); [done|].
  rewrite <-collides_bool. by destruct (is_text_or_url item_type).
Qed.

Lemma validate_scan_None items :
  validate_scan items item_name item_type exclude_id = None
  ↔ ∀ it, it ∈ items →
          excluded exclude_id it ∨ ¬ collides item_name item_type it.
Proof.
  induction items as [|it items IH].
  { split; [by inversion 2|done]. }
  rewrite validate_scan_step.
  destruct (bool_decide_reflect (excluded exclude_id it)) as [Hex|Hex].
  - rewrite IH. set_solver.
  - destruct (bool_decide_reflect (collides item_name item_type it))
      as [Hco|Hco].
    + split; [done|]. intros H. destruct (H it); [by left|done..].
    + rewrite IH. set_solver.
Qed.

Lemma validate_scan_Some items m :
  validate_scan items item_name item_type exclude_id = Some m →
  m = (if is_text_or_url item_type
       then MsgDuplicateEntry item_name
       else MsgDuplicateFile item_name)
  ∧ ∃ it, it ∈ items ∧ ¬ excluded exclude_id it
          ∧ collides item_name item_type it.
Proof.
  induction items as [|it items IH]; [done|].
  rewrite validate_scan_step.
  destruct (bool_decide_reflect (excluded exclude_id it)) as [Hex|Hex].
  - intros (? & it' & ? & ?)%IH. split; [done|]. exists it'. set_solver.
  - destruct (bool_decide_reflect (collides item_name item_type it))
      as [Hco|Hco].
    + intros [= <-]. split; [done|]. exists it. set_solver.
    + intros (? & it' & ? & ?)%IH. split; [done|]. exists it'. set_solver.
Qed.
End validate.

(** C7, as stated, fails in its last part: setting [exclude_id] to the
    id of the item the call collided with does not make the call
    succeed when a second item has the same name, nor when that id is
    the empty string, which the guard [if exclude_id and ...] takes for
    no exclude id at all. *)
Lemma C7_exclude_id_does_not_clear_collision :
  (validate_item_name twoReports "report.pdf" (Some "file") None
   = Some (MsgDuplicateFile "report.pdf")
   ∧ validate_item_name twoReports "report.pdf" (Some "file") (Some "1")
     = Some (MsgDuplicateFile "report.pdf"))
  ∧ (validate_item_name
       [Item "" (Some "file") None (Some "report.pdf") None ["A"]]
       "report.pdf" (Some "file") None
     = Some (MsgDuplicateFile "report.pdf")
     ∧ validate_item_name
         [Item "" (Some "file") None (Some "report.pdf") None ["A"]]
         "report.pdf" (Some "file") (Some "")
       = Some (MsgDuplicateFile "report.pdf")).
Proof. repeat split; reflexivity. Qed.

(** C7, amended: a blank name is refused with the [EmptyName] message.
    For any other name the scan passes over the items whose id is the
    exclude id (when one is given, as a non-empty string) and reports a
    duplicate exactly when one of the remaining items collides: by its
    content, for a text or a url against any text or url item; by its
    file name, for any other type against the items of that same type.
    The call succeeds when no remaining item collides; in particular a
    call with the exclude id set to the non-empty id of a colliding item
    succeeds when no item with another id collides. *)
Theorem C7_validate_item_name items item_name item_type exclude_id :
  (blank item_name = true →
   validate_item_name items item_name item_type exclude_id
   = Some MsgEmptyName
   ∧ kind_of MsgEmptyName = EmptyName)
  ∧ (blank item_name = false →
     (validate_item_name items item_name item_type exclude_id = None
      ↔ ∀ it, it ∈ items →
              excluded exclude_id it ∨ ¬ collides item_name item_type it)
     ∧ (∀ m,
          validate_item_name items item_name item_type exclude_id = Some m →
          kind_of m = DuplicateName
          ∧ m = (if is_text_or_url item_type
                 then MsgDuplicateEntry item_name
                 else MsgDuplicateFile item_name)
          ∧ ∃ it, it ∈ items ∧ ¬ excluded exclude_id it
                  ∧ collides item_name item_type it)
     ∧ (∀ it0,
          it0 ∈ items → collides item_name item_type it0 →
          i_id it0 ≠ "" →
          (∀ it, it ∈ items → collides item_name item_type it →
                 i_id it = i_id it0) →
          validate_item_name items item_name item_type None ≠ None
          ∧ validate_item_name items item_name item_type
                               (Some (i_id it0)) = None)).
Proof.
  unfold validate_item_name. rewrite blank_empty_or_spaces. split.
  - by intros ->.
  - intros ->. split_and!.
    + apply validate_scan_None.
    + intros m (-> & Hit)%validate_scan_Some. split_and!; [|done..].
      by destruct (is_text_or_url item_type).
    + intros it0 Hit0 Hco Hid Honly. split.
      * rewrite validate_scan_None. intros H.
        destruct (H it0 Hit0) as [[Hex _]|Hno]; done.
      * apply validate_scan_None. intros it Hit.
        destruct (decide (collides item_name item_type it)) as [Hc|Hc];
          [|by right].
        left. split; [|by rewrite (Honly it Hit Hc)].
        simpl. unfold truthy. by rewrite bool_decide_eq_false_2.
Qed.

Lemma C7_validate_item_name_witness :
  validate_item_name
    [Item "7" (Some "file") None (Some "report.pdf") None ["A"]]
    "report.pdf" (Some "file") None ≠ None
  ∧ validate_item_name
      [Item "7" (Some "file") None (Some "report.pdf") None ["A"]]
      "report.pdf" (Some "file") (Some "7") = None.
Proof.
  destruct (C7_validate_item_name
              [Item "7" (Some "file") None (Some "report.pdf") None ["A"]]
              "report.pdf" (Some "file") None) as [_ Hnonblank].
  destruct Hnonblank as (_ & _ & Hexclude); [reflexivity|].
  apply (Hexclude
           (Item "7" (Some "file") None (Some "report.pdf") None ["A"])).
  - by left.
  - split; reflexivity.
  - discriminate.
  - intros it Hit _. apply list_elem_of_singleton in Hit. by subst.
Defined.

(** ** C9: the operations that keep every item in its place *)

Lemma same_items_but_refl touched items : same_items_but touched items items.
Proof. by split_and!. Qed.

Lemma same_items_but_fmap (touched : item → Prop) (f : item → item) items :
  (∀ it, i_id (f it) = i_id it) → (∀ it, ¬ touched it → f it = it) →
  same_items_but touched items (f <$> items).
Proof.
  intros Hid Hother. split_and!.
  - rewrite <-list_fmap_compose. apply list_fmap_ext. intros ? it _. apply Hid.
  - by rewrite length_fmap.
  - intros i it Hi Hnot. by rewrite list_lookup_fmap, Hi; simpl; rewrite Hother.
Qed.

(** The shape of every list the toggle and the tag addition return. *)
Lemma same_items_but_selected item_ids (new_ids : item → list string) items :
  same_items_but (λ it, i_id it ∈ item_ids) items
    ((λ it, if selected item_ids it
            then with_categoryIds it (new_ids it) else it) <$> items).
Proof.
  apply same_items_but_fmap.
  - intros it. by destruct (selected item_ids it).
  - intros it Hsel%selected_false. by rewrite Hsel.
Qed.

Lemma toggle_same_items fuel items item_ids c categories items' :
  toggle_category_association fuel items item_ids c categories = Some items' →
  same_items_but (λ it, i_id it ∈ item_ids) items items'.
Proof.
  unfold toggle_category_association.
  destruct (get_descendant_ids fuel c categories) as [descendants|];
    [|by destruct (forallb _ _)].
  destruct (forallb _ _); simpl.
  - intros [= <-]. apply (same_items_but_selected item_ids (λ it, _)).
  - destruct (match descendants with
              | [] => get_ancestor_ids fuel c categories
              | _ :: _ => Some [c]
              end) as [to_add|]; [|done].
    simpl. intros [= <-]. apply (same_items_but_selected item_ids (λ it, _)).
Qed.

Lemma batch_add_tags_same_items fuel items item_ids c categories items' :
  batch_add_tags fuel items item_ids c categories = Some items' →
  same_items_but (λ it, i_id it ∈ item_ids) items items'.
Proof.
  unfold batch_add_tags.
  destruct (match categories with
            | [] => Some [c]
            | _ :: _ => expand_category_ids fuel [c] categories
            end) as [to_add|]; [|done].
  simpl. intros [= <-]. apply (same_items_but_selected item_ids (λ it, _)).
Qed.

Lemma batch_edit_same_items items item_ids description category_id :
  same_items_but (λ it, i_id it ∈ item_ids) items
    (batch_edit items item_ids description category_id).
Proof.
  unfold batch_edit. apply same_items_but_fmap.
  - intros it. destruct (selected item_ids it); [|done].
    destruct description as [d|], category_id as [c|]; simpl;
      repeat case_match; done.
  - intros it Hsel%selected_false. by rewrite Hsel.
Qed.

Lemma batch_remove_categories_same_items items item_ids category_ids :
  same_items_but (λ it, i_id it ∈ item_ids) items
    (batch_remove_categories items item_ids category_ids).1.
Proof.
  unfold batch_remove_categories.
  destruct item_ids as [|i0 ids] eqn:Hids; [apply same_items_but_refl|].
  destruct category_ids as [|c0 cs] eqn:Hcs; [apply same_items_but_refl|].
  rewrite <-Hids, <-Hcs. rewrite batch_remove_loop_spec.
  case_bool_decide; [apply same_items_but_refl|]. simpl.
  apply same_items_but_fmap.
  - intros it. unfold batch_remove_one.
    destruct (selected item_ids it); [|done].
    by destruct (remaining_category_ids category_ids it).
  - intros it Hsel%selected_false. unfold batch_remove_one. by rewrite Hsel.
Qed.

Lemma remove_category_loop_result items rest item_id category_id
    item_found updated_items :
  (remove_category_loop items rest item_id category_id item_found
                        updated_items).1 = items
  ∨ (remove_category_loop items rest item_id category_id item_found
                          updated_items).1
    = updated_items
      ++ ((λ it,
             if bool_decide (i_id it = item_id) then
               with_categoryIds it
                 (List.filter (λ cid, negb (bool_decide (cid = category_id)))
                              (i_categoryIds it))
             else it) <$> rest).
Proof.
  revert item_found updated_items.
  induction rest as [|it rest IH]; intros item_found updated_items; simpl.
  - destruct item_found; simpl; [right; by rewrite app_nil_r|by left].
  - case_bool_decide; simpl.
    + destruct (bool_decide (category_id ∈ i_categoryIds it)); simpl;
        [|by left].
      case_bool_decide; [by left|].
      destruct (IH true (updated_items
        ++ [with_categoryIds it
              (List.filter (λ cid, negb (bool_decide (cid = category_id)))
                           (i_categoryIds it))])) as [->| ->];
        [by left|right]. by rewrite <-app_assoc.
    + destruct (IH item_found (updated_items ++ [it])) as [->| ->];
        [by left|right]. by rewrite <-app_assoc.
Qed.

Lemma remove_category_from_item_same_items items item_id category_id :
  same_items_but (λ it, i_id it = item_id) items
    (remove_category_from_item items item_id category_id).1.
Proof.
  unfold remove_category_from_item.
  destruct (remove_category_loop_result items items item_id category_id
              false []) as [->| ->]; [apply same_items_but_refl|].
  simpl. apply same_items_but_fmap.
  - intros it. by case_bool_decide.
  - intros it Hne. by rewrite bool_decide_eq_false_2.
Qed.

(** C9: the tag addition, the toggle, the batch edit, the batch removal
    of categories and the removal of one category from one item return a
    list with the same number of items as the input and, at every
    position, an item with the same id as the input item there; items
    outside the selection come back unchanged.  The two operations that
    walk the category list return on every acyclic list, the three
    others always return. *)
Theorem C9_item_sequence_preserved
    fuel items item_ids category_ids item_id c categories description
    category_id :
  (∀ items',
     batch_add_tags fuel items item_ids c categories = Some items' →
     same_items_but (λ it, i_id it ∈ item_ids) items items')
  ∧ (∀ items',
       toggle_category_association fuel items item_ids c categories
       = Some items' →
       same_items_but (λ it, i_id it ∈ item_ids) items items')
  ∧ same_items_but (λ it, i_id it ∈ item_ids) items
      (batch_edit items item_ids description category_id)
  ∧ same_items_but (λ it, i_id it ∈ item_ids) items
      (batch_remove_categories items item_ids category_ids).1
  ∧ same_items_but (λ it, i_id it = item_id) items
      (remove_category_from_item items item_id c).1
  ∧ (acyclic categories → length categories < fuel →
     is_Some (batch_add_tags fuel items item_ids c categories)
     ∧ is_Some (toggle_category_association fuel items item_ids c
                                            categories)).
Proof.
  split_and!.
  - apply batch_add_tags_same_items.
  - apply toggle_same_items.
  - apply batch_edit_same_items.
  - apply batch_remove_categories_same_items.
  - apply remove_category_from_item_same_items.
  - intros Hacyclic Hlen. split.
    + unfold batch_add_tags, expand_category_ids. simpl.
      destruct (get_ancestor_ids_returns categories Hacyclic fuel c Hlen)
        as [chain ->].
      destruct categories; by eexists.
    + unfold toggle_category_association.
      destruct (get_descendant_ids_returns categories Hacyclic fuel c Hlen)
        as [descendants ->].
      destruct (get_ancestor_ids_returns categories Hacyclic fuel c Hlen)
        as [chain ->].
      destruct (forallb _ _), descendants; by eexists.
Qed.

Lemma C9_item_sequence_preserved_witness :
  ∃ items',
    toggle_category_association 4 [mk_item "I1" ["C"]; mk_item "I2" ["A"]]
                                ["I2"] "C" treeABC = Some items'
    ∧ i_id <$> items' = ["I1"; "I2"]
    ∧ items' !! 0 = Some (mk_item "I1" ["C"]).
Proof.
  destruct (C9_item_sequence_preserved
              4 [mk_item "I1" ["C"]; mk_item "I2" ["A"]] ["I2"] [] "I1" "C"
              treeABC None None)
    as (_ & Htoggle & _ & _ & _ & Hreturns).
  destruct Hreturns as [_ [items' Hrun]].
  - apply (parents_first_acyclic ["A"; "B"; "C"]). reflexivity.
  - simpl. lia.
  - destruct (Htoggle items' Hrun) as (Hids & _ & Hother).
    exists items'. split; [exact Hrun|]. split; [exact Hids|].
    apply Hother; [reflexivity|].
    intros Hin. apply list_elem_of_singleton in Hin. discriminate.
Defined.

(** * Further properties of the code *)

(** ** The category tree *)

(** X1: what [get_descendant_ids] returns is exactly the set of ids of
    categories from which the parent links lead to [root_id]: the
    categories whose [parentId] is [root_id], those whose parent is one
    of these, and so on. *)
Theorem X1_descendants_are_the_ids_below categories fuel root_id result :
  get_descendant_ids fuel root_id categories = Some result →
  ∀ x, x ∈ result ↔ tc (parent_edge categories) x root_id.
Proof.
  intros Hrun x. split.
  - by eapply get_descendant_ids_sound.
  - by eapply get_descendant_ids_complete.
Qed.

Lemma X1_descendants_are_the_ids_below_witness :
  ("C" ∈ ["B"; "C"]) ↔ tc (parent_edge treeABC) "C" "A".
Proof.
  apply (X1_descendants_are_the_ids_below treeABC 4 "A" ["B"; "C"]).
  reflexivity.
Defined.

(** X2: on an acyclic list the descendants of an id never include the id
    itself, nor any id of its ancestor chain; and an id that no category
    names as its parent has no descendants. *)
Theorem X2_descendants_exclude_self_and_ancestors
    categories fuel root_id result chain :
  acyclic categories →
  get_descendant_ids fuel root_id categories = Some result →
  get_ancestor_ids fuel root_id categories = Some chain →
  (root_id ∉ result)
  ∧ (∀ a, a ∈ chain → a ∉ result)
  ∧ ((∀ c, c ∈ categories → c_parentId c ≠ Some root_id) → result = []).
Proof.
  intros Hacyclic Hdesc Hchain.
  assert (∀ a, a ∈ chain → a ∉ result) as Hanc.
  { intros a Ha Hin.
    pose proof (get_descendant_ids_sound _ _ _ _ Hdesc a Hin) as Hdown.
    destruct (get_ancestor_ids_sound _ _ _ _ Hchain a Ha) as [Heq|Hup].
    - subst a. by apply (Hacyclic root_id).
    - apply (Hacyclic a). by eapply tc_trans. }
  split_and!; [|done|].
  - apply Hanc. destruct (get_ancestor_ids_head _ _ _ _ Hchain) as [tail ->].
    by left.
  - intros Hnone. destruct result as [|x result]; [done|]. exfalso.
    assert (tc (parent_edge categories) x root_id) as Hx.
    { eapply get_descendant_ids_sound; [done|by left]. }
    apply tc_inv_r in Hx as [(c & Hc & _ & Hp)|(y & _ & c & Hc & _ & Hp)];
      by apply (Hnone c).
Qed.

Lemma X2_descendants_exclude_self_and_ancestors_witness :
  ("B" ∉ ["C"]) ∧ (∀ a, a ∈ ["B"; "A"] → a ∉ ["C"])
  ∧ ((∀ c, c ∈ treeABC → c_parentId c ≠ Some "B") → ["C"] = []).
Proof.
  apply (X2_descendants_exclude_self_and_ancestors treeABC 4 "B").
  - apply (parents_first_acyclic ["A"; "B"; "C"]). reflexivity.
  - reflexivity.
  - reflexivity.
Defined.


(** X3: the list [get_ancestor_ids] returns starts with the id asked
    for; after each id comes the [parentId] of the first category with
    that id, and the list ends at the first id that has no such
    category, or whose category has no parent (none, or an empty one).
    In particular the chain of an unknown id is that id alone. *)
Theorem X3_ancestor_chain_follows_parent_links
    categories fuel category_id chain :
  get_ancestor_ids fuel category_id categories = Some chain →
  chain !! 0 = Some category_id
  ∧ (∀ i a, chain !! i = Some a →
            chain !! S i = parent_of categories a)
  ∧ (find_category category_id categories = None →
     chain = [category_id]).
Proof.
  rewrite get_ancestor_ids_unfold. case_decide as Hnil.
  - intros [= <-]. subst categories. split_and!; [done| |done].
    intros [|i] a Hi; simplify_eq/=; done.
  - rewrite ancestors_loop_acc.
    destruct (ancestors_loop fuel categories [] category_id) as [tail|]
      eqn:Hloop; [|done].
    intros [= <-]. simpl.
    pose proof (ancestors_loop_parent_of _ _ _ _ Hloop) as Hlinks.
    split_and!; [done|by apply Hlinks|].
    intros Hfind. specialize (Hlinks 0 category_id eq_refl).
    unfold parent_of in Hlinks. rewrite Hfind in Hlinks.
    by destruct tail.
Qed.

Lemma X3_ancestor_chain_follows_parent_links_witness :
  ["C"; "B"; "gone"] !! 0 = Some "C"
  ∧ (∀ i a, ["C"; "B"; "gone"] !! i = Some a →
            ["C"; "B"; "gone"] !! S i = parent_of treeDangling a)
  ∧ (find_category "C" treeDangling = None → ["C"; "B"; "gone"] = ["C"]).
Proof.
  apply (X3_ancestor_chain_follows_parent_links treeDangling 3 "C").
  reflexivity.
Defined.

(** X4: on an acyclic list the ancestor chain visits no id twice, and
    has at most one id more than the list has categories. *)
Theorem X4_ancestor_chain_has_no_repetition categories fuel category_id chain :
  acyclic categories →
  get_ancestor_ids fuel category_id categories = Some chain →
  NoDup chain ∧ length chain ≤ S (length categories).
Proof.
  intros Hacyclic. rewrite get_ancestor_ids_unfold. case_decide as Hnil.
  { intros [= <-]. split; [apply NoDup_singleton|simpl; lia]. }
  rewrite ancestors_loop_acc.
  destruct (ancestors_loop fuel categories [] category_id) as [tail|]
    eqn:Hloop; [|done].
  intros [= <-]. simpl.
  pose proof (ancestors_loop_NoDup _ _ _ _ Hacyclic Hloop) as Hnd.
  split; [done|].
  pose proof (ancestors_loop_parent_of _ _ _ _ Hloop) as Hlinks.
  cut (length (take (length tail) (category_id :: tail))
       ≤ length categories).
  { rewrite length_take. simpl. lia. }
  apply distinct_ids_bound.
  - eapply sublist_NoDup; [done|apply sublist_take].
  - intros a Ha. apply list_elem_of_lookup in Ha as [i Hi].
    apply lookup_take_Some in Hi as [Hi Hlt].
    apply Hlinks in Hi.
    destruct (lookup_lt_is_Some_2 tail i Hlt) as [p Hp].
    rewrite Hp in Hi. symmetry in Hi.
    eapply edge_child_in. by apply parent_of_edge.
Qed.

Lemma X4_ancestor_chain_has_no_repetition_witness :
  NoDup ["C"; "B"; "A"] ∧ length ["C"; "B"; "A"] ≤ S (length treeABC).
Proof.
  apply (X4_ancestor_chain_has_no_repetition treeABC 4 "C").
  - apply (parents_first_acyclic ["A"; "B"; "C"]). reflexivity.
  - reflexivity.
Defined.

Section unique_ids.
Context (categories : list category).
Hypothesis Hunique : NoDup (c_id <$> categories).
Hypothesis Hparents : ∀ c, c ∈ categories → c_parentId c ≠ Some "".

Lemma same_id_same_category c c' :
  c ∈ categories → c' ∈ categories → c_id c = c_id c' → c = c'.
Proof.
  clear Hparents. induction categories as [|c0 cs IH]; [by inversion 1|].
  rewrite fmap_cons in Hunique. apply NoDup_cons in Hunique as [Hnotin Hnd].
  intros [->|Hc]%elem_of_cons [->|Hc']%elem_of_cons Hid; [done| | |by apply IH].
  - destruct Hnotin. rewrite Hid. by apply list_elem_of_fmap_2.
  - destruct Hnotin. rewrite <-Hid. by apply list_elem_of_fmap_2.
Qed.

(** With unique ids and no empty parent id, the walk upwards takes every
    parent link there is. *)
Lemma edge_parent_of a p :
  parent_edge categories a p → parent_of categories a = Some p.
Proof.
  intros (c & Hc & Hid & Hp). unfold parent_of.
  destruct (find_category a categories) as [c'|] eqn:Hfind.
  - apply find_category_Some in Hfind as [Hc' Hid'].
    assert (c = c') as <- by (apply same_id_same_category; congruence).
    rewrite Hp. unfold truthy. rewrite bool_decide_eq_false_2; [done|].
    intros ->. by apply (Hparents c).
  - unfold find_category in Hfind.
    eapply find_none in Hfind; [|by apply list_elem_of_In].
    by apply bool_decide_eq_false in Hfind.
Qed.

Lemma ancestors_loop_complete fuel y tail x :
  ancestors_loop fuel categories [] y = Some tail →
  tc (parent_edge categories) y x → x ∈ tail.
Proof.
  intros Hloop Hup. revert tail Hloop.
  induction Hup as [y x Hedge|y z x Hedge _ IH]; intros tail Hloop.
  - apply edge_parent_of in Hedge.
    pose proof (ancestors_loop_parent_of _ _ _ _ Hloop 0 y eq_refl) as H0.
    rewrite Hedge in H0. by eapply list_elem_of_lookup_2.
  - apply edge_parent_of in Hedge.
    pose proof (ancestors_loop_parent_of _ _ _ _ Hloop 0 y eq_refl) as H0.
    rewrite Hedge in H0. apply list_elem_of_lookup_2 in H0.
    destruct (ancestors_loop_closed _ _ _ _ Hloop z H0)
      as (tail_z & Hz & Hsub).
    by apply Hsub, IH.
Qed.
End unique_ids.

(** X5: the two walks are dual.  When the ids of the categories are
    unique and no category has the empty string as its parent id, [y] is
    among the descendants of [x] exactly when [x] comes up in the
    ancestor chain of [y], after [y] itself. *)
Theorem X5_ancestors_and_descendants_are_dual
    categories fuel x y chain below :
  NoDup (c_id <$> categories) →
  (∀ c, c ∈ categories → c_parentId c ≠ Some "") →
  get_ancestor_ids fuel y categories = Some chain →
  get_descendant_ids fuel x categories = Some below →
  ∃ tail, chain = y :: tail ∧ (y ∈ below ↔ x ∈ tail).
Proof.
  intros Hunique Hparents Hchain Hbelow.
  assert (y ∈ below ↔ tc (parent_edge categories) y x) as Hiff.
  { split.
    - by eapply get_descendant_ids_sound.
    - by eapply get_descendant_ids_complete. }
  revert Hchain. rewrite get_ancestor_ids_unfold. case_decide as Hnil.
  - intros [= <-]. exists []. split; [done|]. rewrite Hiff.
    split; [|by inversion 1].
    intros Hup. exfalso.
    apply tc_inv_r in Hup as [(c & Hc & _)|(z & _ & c & Hc & _)];
      rewrite Hnil in Hc; inversion Hc.
  - rewrite ancestors_loop_acc.
    destruct (ancestors_loop fuel categories [] y) as [tail|] eqn:Hloop;
      [|done].
    intros [= <-]. exists tail. split; [done|]. rewrite Hiff. split.
    + by eapply ancestors_loop_complete.
    + by eapply ancestors_loop_sound.
Qed.

Lemma X5_ancestors_and_descendants_are_dual_witness :
  ∃ tail, ["C"; "B"; "A"] = "C" :: tail ∧ ("C" ∈ ["B"; "C"] ↔ "A" ∈ tail).
Proof.
  apply (X5_ancestors_and_descendants_are_dual treeABC 4 "A" "C").
  - vm_compute. repeat constructor; intros Hin;
      repeat (apply elem_of_cons in Hin as [Hin|Hin]; [discriminate|]);
      inversion Hin.
  - intros c Hc.
    repeat (apply elem_of_cons in Hc as [->|Hc]; [discriminate|]).
    inversion Hc.
  - reflexivity.
  - reflexivity.
Defined.

(** X6: the list [expand_category_ids] returns has no repetition, holds
    every id it was given, holds with an id the parent the ancestor walk
    would move to from it, and holds nothing but the ids given and ids
    reached from them through parent links.  Nothing given, nothing
    returned. *)
Theorem X6_expansion_is_closed_under_parents categories fuel ids expanded :
  expand_category_ids fuel ids categories = Some expanded →
  NoDup expanded
  ∧ (∀ y, y ∈ ids → y ∈ expanded)
  ∧ (∀ y p, y ∈ expanded → parent_of categories y = Some p → p ∈ expanded)
  ∧ (∀ y, y ∈ expanded →
          ∃ x, x ∈ ids ∧ (y = x ∨ tc (parent_edge categories) x y))
  ∧ (ids = [] → expanded = []).
Proof.
  intros Hrun.
  pose proof (expand_category_ids_elem_of _ _ _ _ Hrun) as Hin.
  assert (∀ x, x ∈ ids →
            is_Some (get_ancestor_ids fuel x categories)) as Hreturns.
  { clear Hin. unfold expand_category_ids in Hrun.
    destruct (expand_loop fuel ids categories ∅) as [s|] eqn:Hs; [|done].
    clear Hrun. revert Hs. generalize (∅ : gset string).
    induction ids as [|x0 ids' IH]; intros acc Hs x Hx; [inversion Hx|].
    simpl in Hs.
    destruct (get_ancestor_ids fuel x0 categories) as [r|] eqn:Hr; [|done].
    apply elem_of_cons in Hx as [->|Hx]; [by eexists|].
    by eapply IH. }
  split_and!.
  - unfold expand_category_ids in Hrun.
    destruct (expand_loop fuel ids categories ∅) as [s|]; [|done].
    simpl in Hrun. simplify_eq. apply NoDup_elements.
  - intros y Hy. apply Hin. destruct (Hreturns y Hy) as [r Hr].
    exists y, r. split_and!; [done..|].
    destruct (get_ancestor_ids_head _ _ _ _ Hr) as [tail ->]. by left.
  - intros y p (x & r & Hx & Hr & Hy)%Hin Hp.
    destruct (get_ancestor_ids_closed _ _ _ _ Hr y Hy) as (r' & Hr' & Hsub).
    apply Hin. exists x, r. split_and!; [done..|]. apply Hsub.
    revert Hr'. rewrite get_ancestor_ids_unfold. case_decide as Hnil.
    { rewrite Hnil in Hp. done. }
    rewrite ancestors_loop_acc.
    destruct (ancestors_loop fuel categories [] y) as [tail|] eqn:Hloop;
      [|done].
    intros [= <-].
    pose proof (ancestors_loop_parent_of _ _ _ _ Hloop 0 y eq_refl) as H0.
    rewrite Hp in H0. right. by eapply list_elem_of_lookup_2.
  - intros y (x & r & Hx & Hr & Hy)%Hin. exists x. split; [done|].
    by eapply get_ancestor_ids_sound.
  - intros ->. unfold expand_category_ids in Hrun. simpl in Hrun.
    simplify_eq. apply elements_empty.
Qed.

Lemma X6_expansion_is_closed_under_parents_witness :
  NoDup ["C"; "A"; "B"; "X"]
  ∧ ∀ y p, y ∈ ["C"; "A"; "B"; "X"] → parent_of treeABC y = Some p →
           p ∈ ["C"; "A"; "B"; "X"].
Proof.
  destruct (X6_expansion_is_closed_under_parents
              treeABC 5 ["C"; "X"] ["C"; "A"; "B"; "X"])
    as (Hnodup & _ & Hclosed & _).
  - vm_compute. reflexivity.
  - split; [exact Hnodup|exact Hclosed].
Defined.

(** ** The tagging operations *)

(** Every list [batch_add_tags] returns. *)
Lemma batch_add_tags_run fuel items item_ids c categories items' :
  batch_add_tags fuel items item_ids c categories = Some items' →
  ∃ chain to_add,
    get_ancestor_ids fuel c categories = Some chain
    ∧ (∀ x, x ∈ to_add ↔ x ∈ chain)
    ∧ batch_add_tags fuel items item_ids c categories
      = Some ((λ it,
                 if selected item_ids it then
                   with_categoryIds it
                     (elements (list_to_set (i_categoryIds it)
                                ∪ list_to_set to_add : gset string))
                 else it) <$> items).
Proof.
  unfold batch_add_tags. destruct categories as [|c0 cs] eqn:Hcs.
  { intros _. exists [c], [c]. by split_and!. }
  rewrite <-Hcs. unfold expand_category_ids. simpl.
  destruct (get_ancestor_ids fuel c categories) as [chain|]; [|done].
  intros _. simpl. exists chain, (elements (∅ ∪ list_to_set chain
                                            : gset string)).
  split_and!; [done| |done]. set_solver.
Qed.

(** Every list the toggle returns. *)
Lemma toggle_run fuel items item_ids c categories items' :
  toggle_category_association fuel items item_ids c categories = Some items' →
  ∃ descendants (new_ids : item → list string),
    get_descendant_ids fuel c categories = Some descendants
    ∧ items' = (λ it, if selected item_ids it
                      then with_categoryIds it (new_ids it) else it)
               <$> items
    ∧ (∀ it, NoDup (new_ids it))
    ∧ ((all_selected_have items item_ids c
        ∧ ∀ it x, x ∈ new_ids it ↔
                  x ∈ i_categoryIds it ∧ x ≠ c ∧ x ∉ descendants)
       ∨ (¬ all_selected_have items item_ids c
          ∧ ∃ to_add,
              match descendants with
              | _ :: _ => Some [c]
              | [] => get_ancestor_ids fuel c categories
              end = Some to_add
              ∧ ∀ it x, x ∈ new_ids it ↔
                        x ∈ i_categoryIds it ∨ x ∈ to_add)).
Proof.
  unfold toggle_category_association.
  destruct (forallb _ _) eqn:Hall.
  - apply all_have_category_spec in Hall.
    destruct (get_descendant_ids fuel c categories) as [descendants|];
      [|done].
    simpl. intros [= <-]. exists descendants. eexists (λ it, _).
    split_and!; [done|done|intros it; apply NoDup_elements|].
    left. split; [done|]. intros it x. simpl.
    destruct descendants; set_solver.
  - assert (¬ all_selected_have items item_ids c) as Hnall.
    { intros H%all_have_category_spec. congruence. }
    destruct (get_descendant_ids fuel c categories) as [descendants|];
      [|done].
    simpl.
    destruct (match descendants with
              | [] => get_ancestor_ids fuel c categories
              | _ :: _ => Some [c]
              end) as [to_add|] eqn:Hadd; [|done].
    simpl. intros [= <-]. exists descendants. eexists (λ it, _).
    split_and!; [done|done|intros it; apply NoDup_elements|].
    right. split; [done|]. exists to_add. split; [done|].
    intros it x. simpl. set_solver.
Qed.

(** X7: in the list [batch_add_tags] returns, every selected item has
    the ids it had, the category id added, and the ids of the ancestor
    chain of that category: those and no others, each once. *)
Theorem X7_batch_add_tags_adds_the_chain
    fuel items item_ids c categories items' :
  batch_add_tags fuel items item_ids c categories = Some items' →
  ∃ chain,
    get_ancestor_ids fuel c categories = Some chain
    ∧ ∀ i it, items !! i = Some it → i_id it ∈ item_ids →
        ∃ ids,
          items' !! i = Some (with_categoryIds it ids)
          ∧ NoDup ids
          ∧ (∀ x, x ∈ ids ↔ x ∈ i_categoryIds it ∨ x ∈ chain)
          ∧ c ∈ ids.
Proof.
  intros Hrun.
  destruct (batch_add_tags_run _ _ _ _ _ _ Hrun)
    as (chain & to_add & Hchain & Hadd & Heq).
  rewrite Heq in Hrun. simplify_eq. exists chain. split; [done|].
  intros i it Hi Hsel%selected_true.
  rewrite list_lookup_fmap, Hi. simpl. rewrite Hsel. eexists.
  split; [done|]. split; [apply NoDup_elements|].
  destruct (get_ancestor_ids_head _ _ _ _ Hchain) as [tail ->].
  split; [|set_solver]. intros x. specialize (Hadd x). set_solver.
Qed.

Lemma X7_batch_add_tags_adds_the_chain_witness :
  ∃ chain,
    get_ancestor_ids 4 "C" treeABC = Some chain
    ∧ ∀ i it, [mk_item "I" ["X"]] !! i = Some it → i_id it ∈ ["I"] →
        ∃ ids,
          [mk_item "I" ["C"; "A"; "B"; "X"]] !! i
          = Some (with_categoryIds it ids)
          ∧ NoDup ids
          ∧ (∀ x, x ∈ ids ↔ x ∈ i_categoryIds it ∨ x ∈ chain)
          ∧ c_id catC ∈ ids.
Proof.
  apply (X7_batch_add_tags_adds_the_chain
           4 [mk_item "I" ["X"]] ["I"] "C" treeABC).
  vm_compute. reflexivity.
Defined.

(** X8: adding the same tag to the same selection a second time returns
    as well and changes nothing: item by item the second result is the
    first one, up to the order of the category ids. *)
Theorem X8_batch_add_tags_is_idempotent
    fuel items item_ids c categories items1 :
  batch_add_tags fuel items item_ids c categories = Some items1 →
  ∃ items2,
    batch_add_tags fuel items1 item_ids c categories = Some items2
    ∧ length items2 = length items1
    ∧ ∀ i it1, items1 !! i = Some it1 →
        ∃ it2, items2 !! i = Some it2 ∧ same_item_up_to_order it1 it2.
Proof.
  intros Hrun.
  destruct (batch_add_tags_run _ _ _ _ _ _ Hrun)
    as (chain & to_add & Hchain & Hadd & Heq).
  rewrite Heq in Hrun. simplify_eq.
  set (items1 := _ <$> items).
  destruct (batch_add_tags fuel items1 item_ids c categories)
    as [items2|] eqn:Hrun2.
  2: { exfalso. revert Hrun2. unfold batch_add_tags, expand_category_ids.
       simpl. rewrite Hchain. by destruct categories. }
  exists items2. split; [done|].
  destruct (batch_add_tags_run _ _ _ _ _ _ Hrun2)
    as (chain' & to_add' & Hchain' & Hadd' & Heq').
  rewrite Heq' in Hrun2. simplify_eq.
  split; [by rewrite length_fmap|].
  intros i it1 Hi. rewrite list_lookup_fmap, Hi. simpl. eexists.
  split; [done|].
  subst items1. rewrite list_lookup_fmap in Hi.
  destruct (items !! i) as [it|]; [|done]. simpl in Hi. simplify_eq.
  destruct (selected item_ids it) eqn:Hsel.
  - rewrite selected_with_categoryIds, Hsel. split; [done|]. simpl.
    intros x. specialize (Hadd x). specialize (Hadd' x). set_solver.
  - rewrite Hsel. split; [by destruct it|done].
Qed.

Lemma X8_batch_add_tags_is_idempotent_witness :
  ∃ items2,
    batch_add_tags 4 [mk_item "I" ["C"; "A"; "B"; "X"]] ["I"] "C" treeABC
    = Some items2
    ∧ length items2 = 1
    ∧ ∀ i it1, [mk_item "I" ["C"; "A"; "B"; "X"]] !! i = Some it1 →
        ∃ it2, items2 !! i = Some it2 ∧ same_item_up_to_order it1 it2.
Proof.
  apply (X8_batch_add_tags_is_idempotent
           4 [mk_item "I" ["X"]] ["I"] "C" treeABC).
  vm_compute. reflexivity.
Defined.

(** X9: a toggle on a selection that names at least one item changes
    the answer to "does every selected item hold the category": after
    an addition they all hold it, after a removal none of them does. *)
Theorem X9_toggle_flips_the_decision
    fuel items item_ids c categories items' :
  toggle_category_association fuel items item_ids c categories = Some items' →
  (∃ it, it ∈ items ∧ i_id it ∈ item_ids) →
  (all_selected_have items item_ids c →
   ∀ it', it' ∈ items' → i_id it' ∈ item_ids → c ∉ i_categoryIds it')
  ∧ (¬ all_selected_have items item_ids c →
     all_selected_have items' item_ids c)
  ∧ (all_selected_have items' item_ids c
     ↔ ¬ all_selected_have items item_ids c).
Proof.
  intros Hrun (it0 & Hit0 & Hsel0).
  destruct (toggle_run _ _ _ _ _ _ Hrun)
    as (descendants & new_ids & Hdesc & -> & _
        & [[Hall Hids]|(Hnall & to_add & Hadd & Hids)]).
  - assert (∀ it', it' ∈ (λ it, if selected item_ids it
                                then with_categoryIds it (new_ids it)
                                else it) <$> items →
                   i_id it' ∈ item_ids → c ∉ i_categoryIds it') as Hnone.
    { intros it' (it & -> & Hit)%list_elem_of_fmap.
      destruct (selected item_ids it) eqn:Hsel.
      - intros _. simpl. rewrite Hids. naive_solver.
      - intros Hin. apply selected_false in Hsel. done. }
    split_and!; [done|done|]. split; [|done]. intros Hall'. exfalso.
    apply selected_true in Hsel0 as Hsel0'.
    apply (Hnone (with_categoryIds it0 (new_ids it0))).
    + apply list_elem_of_fmap. exists it0. by rewrite Hsel0'.
    + done.
    + apply Hall'; [|done].
      apply list_elem_of_fmap. exists it0. by rewrite Hsel0'.
  - assert (c ∈ to_add) as Hc.
    { destruct descendants; simplify_eq; [|by left].
      destruct (get_ancestor_ids_head _ _ _ _ Hadd) as [tail ->]. by left. }
    assert (all_selected_have
              ((λ it, if selected item_ids it
                      then with_categoryIds it (new_ids it) else it)
               <$> items) item_ids c) as Hall'.
    { intros it' (it & -> & Hit)%list_elem_of_fmap.
      destruct (selected item_ids it) eqn:Hsel.
      - intros _. simpl. rewrite Hids. by right.
      - intros Hin. apply selected_false in Hsel. done. }
    split_and!; [done|done|]. by split.
Qed.

Lemma X9_toggle_flips_the_decision_witness :
  all_selected_have [mk_item "I2" ["C"; "A"; "B"]] ["I2"] "C"
  ↔ ¬ all_selected_have [mk_item "I2" ["A"]] ["I2"] "C".
Proof.
  destruct (X9_toggle_flips_the_decision
              4 [mk_item "I2" ["A"]] ["I2"] "C" treeABC
              [mk_item "I2" ["C"; "A"; "B"]]) as (_ & _ & Hflip).
  - vm_compute. reflexivity.
  - exists (mk_item "I2" ["A"]). split; by left.
  - exact Hflip.
Defined.

(** X10: the toggle does not keep items tagged.  In a removal (every
    selected item holds the category), a selected item that holds
    nothing but the category and descendants of it comes back with no
    category id at all. *)
Theorem X10_toggle_can_leave_an_item_untagged
    fuel items item_ids c categories items' descendants i it :
  toggle_category_association fuel items item_ids c categories = Some items' →
  get_descendant_ids fuel c categories = Some descendants →
  all_selected_have items item_ids c →
  items !! i = Some it → i_id it ∈ item_ids →
  (∀ x, x ∈ i_categoryIds it → x = c ∨ x ∈ descendants) →
  items' !! i = Some (with_categoryIds it []).
Proof.
  intros Hrun Hdesc Hall Hi Hsel%selected_true Honly.
  destruct (toggle_run _ _ _ _ _ _ Hrun)
    as (descendants' & new_ids & Hdesc' & -> & _
        & [[_ Hids]|(Hnall & _)]); [|done].
  simplify_eq. rewrite list_lookup_fmap, Hi. simpl. rewrite Hsel.
  do 2 f_equal. destruct (new_ids it) as [|x l] eqn:Hnew; [done|].
  exfalso. assert (x ∈ new_ids it) as Hx by (rewrite Hnew; by left).
  apply Hids in Hx as (Hx & Hne & Hnd).
  destruct (Honly x Hx); done.
Qed.

Lemma X10_toggle_can_leave_an_item_untagged_witness :
  [mk_item "I1" []] !! 0
  = Some (with_categoryIds (mk_item "I1" ["C"; "B"; "A"]) []).
Proof.
  apply (X10_toggle_can_leave_an_item_untagged
           4 [mk_item "I1" ["C"; "B"; "A"]] ["I1"] "A" treeABC
           [mk_item "I1" []] ["B"; "C"]).
  - vm_compute. reflexivity.
  - reflexivity.
  - intros it Hit _. apply list_elem_of_singleton in Hit. subst it.
    right. right. by left.
  - reflexivity.
  - by left.
  - intros x Hx. simpl in Hx.
    apply elem_of_cons in Hx as [->|Hx]; [right; right; by left|].
    apply elem_of_cons in Hx as [->|Hx]; [right; by left|].
    apply list_elem_of_singleton in Hx. by left.
Defined.

(** X11: for a category without descendants that not every selected
    item holds, the toggle does what [batch_add_tags] does: both return
    the same items, up to the order of the category ids. *)
Theorem X11_toggle_of_a_leaf_adds_like_batch_add_tags
    fuel items item_ids c categories toggled tagged :
  ¬ all_selected_have items item_ids c →
  get_descendant_ids fuel c categories = Some [] →
  toggle_category_association fuel items item_ids c categories
  = Some toggled →
  batch_add_tags fuel items item_ids c categories = Some tagged →
  length toggled = length tagged
  ∧ ∀ i it, toggled !! i = Some it →
      ∃ it', tagged !! i = Some it' ∧ same_item_up_to_order it it'.
Proof.
  intros Hnall Hdesc Htoggle Htag.
  destruct (toggle_run _ _ _ _ _ _ Htoggle)
    as (descendants & new_ids & Hdesc' & -> & _
        & [[Hall _]|(_ & chain & Hchain & Hids)]); [done|].
  simplify_eq.
  destruct (batch_add_tags_run _ _ _ _ _ _ Htag)
    as (chain' & to_add & Hchain' & Hadd & Heq).
  rewrite Heq in Htag. simplify_eq.
  split; [by rewrite !length_fmap|].
  intros i it. rewrite !list_lookup_fmap.
  destruct (items !! i) as [it0|]; [|done]. simpl. intros [= <-].
  eexists. split; [done|].
  destruct (selected item_ids it0).
  - split; [done|]. intros x. simpl. rewrite Hids.
    specialize (Hadd x). set_solver.
  - split; [by destruct it0|done].
Qed.

Lemma X11_toggle_of_a_leaf_adds_like_batch_add_tags_witness :
  length [mk_item "I2" ["C"; "A"; "B"]] = length [mk_item "I2" ["C"; "A"; "B"]]
  ∧ ∀ i it, [mk_item "I2" ["C"; "A"; "B"]] !! i = Some it →
      ∃ it', [mk_item "I2" ["C"; "A"; "B"]] !! i = Some it'
             ∧ same_item_up_to_order it it'.
Proof.
  apply (X11_toggle_of_a_leaf_adds_like_batch_add_tags
           4 [mk_item "I2" ["A"]] ["I2"] "C" treeABC).
  - intros Hall. specialize (Hall (mk_item "I2" ["A"])). simpl in Hall.
    assert ("C" ∈ ["A"]) as Hin by (apply Hall; by left).
    apply list_elem_of_singleton in Hin. discriminate.
  - reflexivity.
  - vm_compute. reflexivity.
  - vm_compute. reflexivity.
Defined.

(** ** Batch edit and batch delete *)

(** What [batch_edit] does to one selected item. *)
Lemma batch_edit_lookup items item_ids description category_id i it :
  items !! i = Some it →
  batch_edit items item_ids description category_id !! i
  = Some (if selected item_ids it then
            let item_copy :=
              match description with
              | Some d =>
                if truthy d && negb (blank d) then with_description it d
                else it
              | None => it
              end in
            match category_id with
            | Some c =>
              if truthy c && negb (bool_decide (c ∈ i_categoryIds it))
              then with_categoryIds item_copy (i_categoryIds it ++ [c])
              else item_copy
            | None => item_copy
            end
          else it).
Proof. intros Hi. unfold batch_edit. by rewrite list_lookup_fmap, Hi. Qed.

(** X12: a batch edit repeated with the same arguments changes nothing
    more: the second result is the first one. *)
Theorem X12_batch_edit_is_idempotent items item_ids description category_id :
  batch_edit (batch_edit items item_ids description category_id)
             item_ids description category_id
  = batch_edit items item_ids description category_id.
Proof.
  unfold batch_edit. rewrite <-list_fmap_compose.
  apply list_fmap_ext. intros _ it _. simpl.
  destruct (selected item_ids it) eqn:Hsel; [|by rewrite Hsel].
  assert (∀ it', i_id it' = i_id it → selected item_ids it' = true) as Hsame.
  { intros it' Hid. unfold selected in *. by rewrite Hid. }
  assert (∀ c, bool_decide (c ∈ i_categoryIds it ++ [c]) = true) as Hnow.
  { intros c. apply bool_decide_eq_true. set_solver. }
  destruct it as [id ty content file descr ids]. simpl in *.
  destruct description as [d|]; [destruct (truthy d && negb (blank d)) eqn:Hd|];
    (destruct category_id as [c|];
     [destruct (truthy c) eqn:Hc;
      [destruct (bool_decide (c ∈ ids)) eqn:Hin|]|]);
    simpl; rewrite ?Hsame by done; simpl;
    rewrite ?Hd, ?Hc, ?Hin, ?Hnow; simpl; reflexivity.
Qed.

(** X13: a batch edit never takes a category away and never repeats one:
    each item keeps its category ids, in order, with at most the given
    category id appended, and only when the item did not hold it; the
    description is the only other field that can change, and only to
    the given description when this one is not blank. *)
Theorem X13_batch_edit_only_appends
    items item_ids description category_id i it :
  items !! i = Some it →
  ∃ it',
    batch_edit items item_ids description category_id !! i = Some it'
    ∧ i_id it' = i_id it ∧ i_type it' = i_type it
    ∧ i_content it' = i_content it ∧ i_fileName it' = i_fileName it
    ∧ (i_categoryIds it' = i_categoryIds it
       ∨ ∃ c, category_id = Some c ∧ c ≠ "" ∧ (c ∉ i_categoryIds it)
              ∧ i_id it ∈ item_ids
              ∧ i_categoryIds it' = i_categoryIds it ++ [c])
    ∧ (NoDup (i_categoryIds it) → NoDup (i_categoryIds it'))
    ∧ (i_description it' = i_description it
       ∨ ∃ d, description = Some d ∧ blank d = false
              ∧ i_id it ∈ item_ids ∧ i_description it' = Some d)
    ∧ (description = None ∨ (∃ d, description = Some d ∧ blank d = true) →
       i_description it' = i_description it).
Proof.
  intros Hi. eexists. split; [by apply batch_edit_lookup|].
  destruct (selected item_ids it) eqn:Hsel.
  2: { split_and!; try done; by left. }
  apply selected_true in Hsel.
  assert (∀ d, truthy d && negb (blank d) = negb (blank d)) as Htb.
  { intros d. destruct d; done. }
  destruct description as [d|], category_id as [c|]; simpl;
    rewrite ?Htb;
    try destruct (blank d) eqn:Hd; simpl;
    try destruct (truthy c) eqn:Hc; simpl;
    try destruct (bool_decide_reflect (c ∈ i_categoryIds it)) as [Hin|Hin];
    simpl;
    (split_and!;
     [done|done|done|done| | | |]);
    try (by left);
    try (right; eexists; split_and!; try done;
         intros ->; by simplify_eq/=);
    try (intros Hnd; apply NoDup_app; split_and!;
         [done|intros x Hx ->%list_elem_of_singleton; done
         |apply NoDup_singleton]);
    try done;
    try (intros [?|(? & ? & ?)]; simplify_eq; congruence).
Qed.

Lemma X13_batch_edit_only_appends_witness :
  ∃ it',
    batch_edit [mk_item "I1" ["C"; "B"]] ["I1"] (Some " ") (Some "A") !! 0
    = Some it'
    ∧ i_categoryIds it' = ["C"; "B"; "A"]
    ∧ i_description it' = None.
Proof.
  destruct (X13_batch_edit_only_appends
              [mk_item "I1" ["C"; "B"]] ["I1"] (Some " ") (Some "A")
              0 (mk_item "I1" ["C"; "B"]))
    as (it' & Hrun & _); [reflexivity|].
  exists it'. split; [exact Hrun|].
  vm_compute in Hrun. injection Hrun as <-. split; reflexivity.
Defined.

(** X14: [batch_delete] keeps, in order, exactly the items whose id is
    not among the ids given; deleting for one list of ids and then for
    another is deleting for both at once, so that repeating a deletion
    changes nothing more; with no id given the list comes back as it
    is. *)
Theorem X14_batch_delete_keeps_the_others items item_ids item_ids' :
  (∀ it, it ∈ batch_delete items item_ids ↔
         it ∈ items ∧ i_id it ∉ item_ids)
  ∧ batch_delete items item_ids `sublist_of` items
  ∧ batch_delete (batch_delete items item_ids) item_ids'
    = batch_delete items (item_ids ++ item_ids')
  ∧ batch_delete (batch_delete items item_ids) item_ids
    = batch_delete items item_ids
  ∧ batch_delete items [] = items.
Proof.
  assert (∀ ids ids',
            batch_delete (batch_delete items ids) ids'
            = batch_delete items (ids ++ ids')) as Hcompose.
  { intros ids ids'. unfold batch_delete.
    induction items as [|it l IH]; simpl; [done|].
    unfold selected in *.
    destruct (bool_decide_reflect (i_id it ∈ ids)) as [Hin|Hin]; simpl.
    - rewrite bool_decide_eq_true_2 by set_solver. simpl. apply IH.
    - destruct (bool_decide_reflect (i_id it ∈ ids')) as [Hin'|Hin']; simpl.
      + rewrite bool_decide_eq_true_2 by set_solver. simpl. apply IH.
      + rewrite bool_decide_eq_false_2 by set_solver. simpl.
        by rewrite IH. }
  assert (∀ it, it ∈ batch_delete items item_ids ↔
                it ∈ items ∧ i_id it ∉ item_ids) as Hin.
  { intros it. unfold batch_delete.
    rewrite list_elem_of_In, filter_In, <-list_elem_of_In.
    by rewrite negb_true_iff, selected_false. }
  split_and!; [done|apply list_filter_sublist|apply Hcompose| |].
  - rewrite Hcompose. unfold batch_delete. apply List.filter_ext.
    intros it. f_equal. unfold selected. apply bool_decide_ext. set_solver.
  - clear. induction items as [|it l IH]; [done|].
    change (batch_delete (it :: l) [])
      with (if negb (selected [] it)
            then it :: batch_delete l [] else batch_delete l []).
    assert (selected [] it = false) as ->
      by (apply selected_false; by inversion 1).
    simpl. by rewrite IH.
Qed.

(** ** Removing categories *)

Section remove_category_success.
Context (items : list item) (item_id category_id : string).

Local Abbreviation removable_everywhere :=
  (removable_everywhere item_id category_id).

Lemma remove_category_loop_success rest item_found updated_items :
  removable_everywhere rest →
  remove_category_loop items rest item_id category_id item_found
                       updated_items
  = if item_found || existsb (λ it, bool_decide (i_id it = item_id)) rest
    then (updated_items
          ++ ((λ it,
                 if bool_decide (i_id it = item_id) then
                   with_categoryIds it
                     (List.filter
                        (λ cid, negb (bool_decide (cid = category_id)))
                        (i_categoryIds it))
                 else it) <$> rest),
          None)
    else (items, Some (MsgNoSuchItem item_id)).
Proof.
  revert item_found updated_items.
  induction rest as [|it rest IH]; intros item_found updated_items Hok.
  - simpl. by rewrite orb_false_r, app_nil_r.
  - assert (removable_everywhere rest) as Hrest.
    { intros it' Hit'. apply Hok. by right. }
    simpl. destruct (bool_decide_reflect (i_id it = item_id)) as [Hid|Hid].
    + destruct (Hok it) as (Hin & x & Hx & Hne); [by left|done|].
      rewrite bool_decide_eq_true_2 by done. simpl.
      rewrite bool_decide_eq_false_2.
      2: { rewrite length_zero_iff_nil, filter_other_nil. naive_solver. }
      rewrite IH by done. simpl.
      rewrite orb_true_r. by rewrite <-app_assoc.
    + rewrite IH by done. by rewrite <-app_assoc.
Qed.

Lemma remove_category_loop_failure rest item_found updated_items :
  ¬ removable_everywhere rest →
  (remove_category_loop items rest item_id category_id item_found
                        updated_items).2 ≠ None.
Proof.
  revert item_found updated_items.
  induction rest as [|it rest IH]; intros item_found updated_items Hbad.
  { destruct Hbad. by inversion 1. }
  simpl. destruct (bool_decide_reflect (i_id it = item_id)) as [Hid|Hid].
  - destruct (bool_decide_reflect (category_id ∈ i_categoryIds it))
      as [Hin|Hin]; simpl; [|done].
    case_bool_decide as Hlen; [done|].
    apply IH. intros Hrest. apply Hbad.
    intros it' [->|Hit']%elem_of_cons Hid'; [|by apply Hrest].
    split; [done|].
    rewrite length_zero_iff_nil, filter_other_nil in Hlen.
    destruct (decide (Exists (λ x, x ≠ category_id) (i_categoryIds it)))
      as [Hex|Hno]; [by apply Exists_exists in Hex|].
    destruct Hlen. intros x Hx.
    destruct (decide (x = category_id)); [done|]. destruct Hno.
    apply Exists_exists. eauto.
  - apply IH. intros Hrest. apply Hbad.
    intros it' [->|Hit']%elem_of_cons Hid'; [done|by apply Hrest].
Qed.
End remove_category_success.

Lemma removable_everywhere_dec item_id category_id rest :
  removable_everywhere item_id category_id rest
  ∨ ¬ removable_everywhere item_id category_id rest.
Proof.
  destruct (decide (Forall (λ it, i_id it = item_id →
                                  category_id ∈ i_categoryIds it
                                  ∧ Exists (λ x, x ≠ category_id)
                                           (i_categoryIds it)) rest))
    as [Hall|Hnot].
  - left. intros it Hit Hid. rewrite Forall_forall in Hall.
    destruct (Hall it Hit Hid) as [Hin Hex]. split; [done|].
    by apply Exists_exists in Hex.
  - right. intros Hok. apply Hnot, Forall_forall. intros it Hit Hid.
    destruct (Hok it Hit Hid) as [Hin Hex]. split; [done|].
    by apply Exists_exists.
Qed.

Lemma existsb_has_id (items : list item) item_id :
  existsb (λ it, bool_decide (i_id it = item_id)) items = true
  ↔ ∃ it, it ∈ items ∧ i_id it = item_id.
Proof.
  rewrite existsb_exists. split.
  - intros (it & Hit & Hid). exists it.
    by rewrite list_elem_of_In, <-(bool_decide_eq_true (i_id it = item_id)).
  - intros (it & Hit & Hid). exists it.
    by rewrite <-list_elem_of_In, bool_decide_eq_true.
Qed.

(** The first item with a given id. *)
Lemma first_with_id (items : list item) item_id :
  (∃ it, it ∈ items ∧ i_id it = item_id) →
  ∃ pre it post,
    items = pre ++ it :: post
    ∧ (∀ it', it' ∈ pre → i_id it' ≠ item_id) ∧ i_id it = item_id.
Proof.
  induction items as [|it0 l IH]; intros (it & Hit & Hid); [inversion Hit|].
  destruct (decide (i_id it0 = item_id)) as [Hid0|Hid0].
  - exists [], it0, l. split_and!; [done| |done]. by inversion 1.
  - destruct IH as (pre & it1 & post & -> & Hpre & Hid1).
    { exists it. split; [|done].
      apply elem_of_cons in Hit as [->|Hit]; done. }
    exists (it0 :: pre), it1, post. split_and!; [done| |done].
    intros it' [->|Hit']%elem_of_cons; [done|by apply Hpre].
Qed.

(** X15: [remove_category_from_item] succeeds exactly when the list has
    an item with the given id and every item with that id holds the
    category together with another category id.  It then returns the
    list with the category taken out of those items, which still have a
    category, and every other item as it was. *)
Theorem X15_remove_category_succeeds_exactly_when items item_id category_id :
  ((remove_category_from_item items item_id category_id).2 = None
   ↔ (∃ it, it ∈ items ∧ i_id it = item_id)
     ∧ removable_everywhere item_id category_id items)
  ∧ ((remove_category_from_item items item_id category_id).2 = None →
     (remove_category_from_item items item_id category_id).1
     = (λ it,
          if bool_decide (i_id it = item_id) then
            with_categoryIds it
              (List.filter (λ cid, negb (bool_decide (cid = category_id)))
                           (i_categoryIds it))
          else it) <$> items
     ∧ ∀ it', it' ∈ (remove_category_from_item items item_id category_id).1 →
              i_id it' = item_id →
              (category_id ∉ i_categoryIds it') ∧ i_categoryIds it' ≠ []).
Proof.
  unfold remove_category_from_item.
  destruct (removable_everywhere_dec item_id category_id items) as [Hok|Hbad].
  - rewrite (remove_category_loop_success _ _ _ _ _ _ Hok). simpl.
    destruct (existsb _ items) eqn:Hex; simpl.
    + apply existsb_has_id in Hex. split; [done|]. intros _. split; [done|].
      intros it' (it & -> & Hit)%list_elem_of_fmap.
      case_bool_decide as Hid; [|done]. intros _. simpl.
      destruct (Hok it Hit Hid) as (Hin & x & Hx & Hne). split.
      * rewrite list_elem_of_In, filter_In. intros [_ Hc].
        by rewrite bool_decide_eq_true_2 in Hc.
      * rewrite filter_other_nil. naive_solver.
    + split; [|done]. split; [done|]. intros [Hsome _].
      apply existsb_has_id in Hsome. congruence.
  - pose proof (remove_category_loop_failure items item_id category_id
                  items false [] Hbad) as Hfail.
    split; [|done]. split; [done|]. by intros [_ ?].
Qed.

Lemma X15_remove_category_succeeds_exactly_when_witness :
  (remove_category_from_item [mk_item "I1" ["C"; "B"]] "I1" "C").1
  = [mk_item "I1" ["B"]].
Proof.
  destruct (X15_remove_category_succeeds_exactly_when
              [mk_item "I1" ["C"; "B"]] "I1" "C") as [_ Hshape].
  destruct Hshape as [Hlist _]; [reflexivity|].
  rewrite Hlist. reflexivity.
Defined.

(** X16: the two removal operations never leave an item without a
    category: if every item of the list has a category, so has every
    item of the list [remove_category_from_item] returns and of the
    list [batch_remove_categories] returns. *)
Theorem X16_removals_keep_every_item_tagged
    items item_ids category_ids item_id category_id :
  (∀ it, it ∈ items → i_categoryIds it ≠ []) →
  (∀ it, it ∈ (remove_category_from_item items item_id category_id).1 →
         i_categoryIds it ≠ [])
  ∧ (∀ it, it ∈ (batch_remove_categories items item_ids category_ids).1 →
           i_categoryIds it ≠ []).
Proof.
  intros Htagged. split.
  - unfold remove_category_from_item.
    destruct (removable_everywhere_dec item_id category_id items)
      as [Hok|Hbad].
    + rewrite (remove_category_loop_success _ _ _ _ _ _ Hok). simpl.
      destruct (existsb _ items); simpl; [|done].
      intros it' (it & -> & Hit)%list_elem_of_fmap.
      case_bool_decide as Hid; [|by apply Htagged]. simpl.
      destruct (Hok it Hit Hid) as (Hin & x & Hx & Hne).
      rewrite filter_other_nil. naive_solver.
    + pose proof (remove_category_loop_failure items item_id category_id
                    items false [] Hbad) as Hfail.
      destruct (remove_category_loop items items item_id category_id false [])
        as [items' [e|]] eqn:Hrun; [|done].
      apply remove_category_loop_error in Hrun as ->. done.
  - unfold batch_remove_categories.
    destruct item_ids as [|i0 ids] eqn:Hids; [done|].
    destruct category_ids as [|c0 cs] eqn:Hcs; [done|].
    rewrite <-Hids, <-Hcs. rewrite batch_remove_loop_spec.
    case_bool_decide; [done|]. simpl.
    intros it' (it & -> & Hit)%list_elem_of_fmap. unfold batch_remove_one.
    destruct (selected item_ids it); [|by apply Htagged].
    destruct (remaining_category_ids category_ids it) eqn:Hrem;
      [by apply Htagged|done].
Qed.

Lemma X16_removals_keep_every_item_tagged_witness :
  (∀ it, it ∈ (remove_category_from_item
                 [mk_item "I1" ["C"; "B"]; mk_item "I2" ["A"]]
                 "I1" "C").1 →
         i_categoryIds it ≠ [])
  ∧ (∀ it, it ∈ (batch_remove_categories
                   [mk_item "I1" ["C"; "B"]; mk_item "I2" ["A"]]
                   ["I1"; "I2"] ["A"; "B"]).1 →
           i_categoryIds it ≠ []).
Proof.
  apply (X16_removals_keep_every_item_tagged
           [mk_item "I1" ["C"; "B"]; mk_item "I2" ["A"]]
           ["I1"; "I2"] ["A"; "B"] "I1" "C").
  intros it Hit.
  apply elem_of_cons in Hit as [->|Hit]; [discriminate|].
  apply list_elem_of_singleton in Hit. subst it. discriminate.
Defined.

Lemma remaining_category_ids_twice category_ids it :
  remaining_category_ids category_ids
    (with_categoryIds it (remaining_category_ids category_ids it))
  = remaining_category_ids category_ids it.
Proof.
  unfold remaining_category_ids. simpl.
  induction (i_categoryIds it) as [|x l IH]; simpl; [done|].
  destruct (negb (bool_decide (x ∈ category_ids))) eqn:Hx; simpl; [|done].
  by rewrite Hx, IH.
Qed.

(** X17: a batch removal that succeeded has nothing left to do: the
    same call on the list it returned changes no item and answers with
    the "nothing modified" message and that list. *)
Theorem X17_batch_removal_repeated_has_no_effect
    items item_ids category_ids items' :
  batch_remove_categories items item_ids category_ids = (items', None) →
  batch_remove_categories items' item_ids category_ids
  = (items', Some MsgNothingModified).
Proof.
  unfold batch_remove_categories.
  destruct item_ids as [|i0 ids] eqn:Hids; [done|].
  destruct category_ids as [|c0 cs] eqn:Hcs; [done|].
  rewrite <-Hids, <-Hcs. rewrite !batch_remove_loop_spec.
  case_bool_decide; [done|]. simpl. intros [= <-].
  rewrite bool_decide_eq_true_2; [done|].
  apply none_modified.
  intros it' (it & -> & Hit)%list_elem_of_fmap.
  unfold batch_remove_one, actually_modified.
  destruct (selected item_ids it) eqn:Hsel; [|by rewrite Hsel].
  destruct (remaining_category_ids category_ids it) as [|x l] eqn:Hrem.
  - by rewrite Hsel, Hrem.
  - rewrite selected_with_categoryIds, Hsel, <-Hrem.
    rewrite remaining_category_ids_twice. simpl.
    by rewrite (bool_decide_eq_true_2 (_ = remaining_category_ids _ _)),
               andb_false_r.
Qed.

Lemma X17_batch_removal_repeated_has_no_effect_witness :
  batch_remove_categories [mk_item "I1" ["C"]; mk_item "I2" ["A"]]
                          ["I1"; "I2"] ["A"; "B"]
  = ([mk_item "I1" ["C"]; mk_item "I2" ["A"]], Some MsgNothingModified).
Proof.
  apply (X17_batch_removal_repeated_has_no_effect
           [mk_item "I1" ["C"; "B"]; mk_item "I2" ["A"]]).
  reflexivity.
Defined.

(** X18: after [remove_category_from_item] has succeeded, the same call
    on the list it returned is refused with the message that the item
    does not hold the category, and returns that list. *)
Theorem X18_remove_category_repeated_is_refused
    items item_id category_id items' :
  remove_category_from_item items item_id category_id = (items', None) →
  remove_category_from_item items' item_id category_id
  = (items', Some (MsgNoSuchCategoryOnItem category_id)).
Proof.
  intros Hrun.
  destruct (removable_everywhere_dec item_id category_id items) as [Hok|Hbad].
  2: { pose proof (remove_category_loop_failure items item_id category_id
                     items false [] Hbad) as Hfail.
       unfold remove_category_from_item in Hrun. by rewrite Hrun in Hfail. }
  unfold remove_category_from_item in Hrun.
  rewrite (remove_category_loop_success _ _ _ _ _ _ Hok) in Hrun.
  simpl in Hrun. destruct (existsb _ items) eqn:Hex; [|done].
  simpl in Hrun. injection Hrun as <-.
  apply existsb_has_id in Hex as (it0 & Hit0 & Hid0).
  set (g := λ it : item, if bool_decide (i_id it = item_id) then _ else it).
  destruct (first_with_id (g <$> items) item_id)
    as (pre & it & post & Hsplit & Hpre & Hid).
  { exists (g it0). split; [by apply list_elem_of_fmap_2|].
    subst g. simpl. by rewrite bool_decide_eq_true_2. }
  rewrite (remove_category_from_item_first _ _ _ _ _ _ Hsplit Hpre Hid).
  rewrite bool_decide_eq_false_2; [done|].
  assert (it ∈ g <$> items) as Hin
    by (rewrite Hsplit; set_solver).
  apply list_elem_of_fmap in Hin as (it1 & -> & Hit1).
  subst g. simpl in *. case_bool_decide as Hid1; [|done]. simpl.
  rewrite list_elem_of_In, filter_In. intros [_ Hc].
  by rewrite bool_decide_eq_true_2 in Hc.
Qed.

Lemma X18_remove_category_repeated_is_refused_witness :
  remove_category_from_item [mk_item "I1" ["B"]] "I1" "C"
  = ([mk_item "I1" ["B"]], Some (MsgNoSuchCategoryOnItem "C")).
Proof.
  apply (X18_remove_category_repeated_is_refused [mk_item "I1" ["C"; "B"]]).
  reflexivity.
Defined.

(** ** The filter and the validator *)

Lemma category_filter_kept fuel items categories sel kept :
  category_filter fuel items categories sel = Some kept →
  Forall (λ it, i_categoryIds it ≠ []
                ∧ matches_all_filters fuel (i_categoryIds it) categories sel
                  = Some true) kept.
Proof.
  revert kept. induction items as [|it items IH]; intros kept; simpl.
  { intros [= <-]. constructor. }
  destruct (i_categoryIds it) as [|x ids] eqn:Hids; [apply IH|].
  destruct (matches_all_filters _ _ _ _) as [b|] eqn:Hb; [|done]. simpl.
  destruct (category_filter _ _ _ _) as [filtered|]; [|done]. simpl.
  intros [= <-]. destruct b; [|by apply IH].
  constructor; [|by apply IH]. by rewrite Hids.
Qed.

Lemma category_filter_fixed fuel categories sel kept :
  Forall (λ it, i_categoryIds it ≠ []
                ∧ matches_all_filters fuel (i_categoryIds it) categories sel
                  = Some true) kept →
  category_filter fuel kept categories sel = Some kept.
Proof.
  induction 1 as [|it kept [Hne Hm] _ IH]; simpl; [done|].
  destruct (i_categoryIds it) as [|x ids]; [done|].
  by rewrite Hm; simpl; rewrite IH.
Qed.

Lemma list_filter_twice {A} (f : A → bool) (l : list A) :
  List.filter f (List.filter f l) = List.filter f l.
Proof.
  induction l as [|a l IH]; simpl; [done|].
  destruct (f a) eqn:Ha; simpl; [|done]. by rewrite Ha, IH.
Qed.

Lemma list_filter_Forall {A} (f : A → bool) (P : A → Prop) (l : list A) :
  Forall P l → Forall P (List.filter f l).
Proof.
  induction 1 as [|a l Ha _ IH]; simpl; [constructor|].
  destruct (f a); [by constructor|done].
Qed.

(** X19: filtering is idempotent: [filter_items], applied with the same
    filters to the list it returned, returns that list again. *)
Theorem X19_filter_items_is_idempotent
    (str_lower : string → string) fuel items categories sel query result :
  filter_items str_lower fuel items categories sel query = Some result →
  filter_items str_lower fuel result categories sel query = Some result.
Proof.
  unfold filter_items.
  destruct sel as [[|f sel']|]; simpl.
  - intros [= <-]. destruct query as [q|]; [|done].
    destruct (truthy q && negb (blank q)); [|done].
    by rewrite list_filter_twice.
  - destruct (category_filter fuel items categories (f :: sel'))
      as [kept|] eqn:Hcat; [|done].
    simpl. intros [= <-].
    apply category_filter_kept in Hcat.
    destruct query as [q|].
    + destruct (truthy q && negb (blank q)).
      * rewrite (category_filter_fixed _ _ _ _
                   (list_filter_Forall _ _ _ Hcat)).
        simpl. by rewrite list_filter_twice.
      * by rewrite (category_filter_fixed _ _ _ _ Hcat).
    + by rewrite (category_filter_fixed _ _ _ _ Hcat).
  - intros [= <-]. destruct query as [q|]; [|done].
    destruct (truthy q && negb (blank q)); [|done].
    by rewrite list_filter_twice.
Qed.

Lemma X19_filter_items_is_idempotent_witness :
  filter_items ascii_lower 4 [mk_item "I1" ["C"]] treeABC (Some ["B"])
               (Some "i1")
  = Some [mk_item "I1" ["C"]].
Proof.
  apply (X19_filter_items_is_idempotent ascii_lower
           4 [mk_item "I1" ["C"]; mk_item "I2" ["A"]]).
  vm_compute. reflexivity.
Defined.

Lemma validate_scan_in_scope items item_name item_type exclude_id :
  validate_scan (List.filter (in_name_scope item_type) items)
                item_name item_type exclude_id
  = validate_scan items item_name item_type exclude_id.
Proof.
  induction items as [|it items IH]; [done|].
  change (List.filter (in_name_scope item_type) (it :: items))
    with (if in_name_scope item_type it
          then it :: List.filter (in_name_scope item_type) items
          else List.filter (in_name_scope item_type) items).
  destruct (in_name_scope item_type it) eqn:Hscope.
  - rewrite !validate_scan_step. by rewrite IH.
  - rewrite IH, validate_scan_step.
    rewrite (bool_decide_eq_false_2 (collides _ _ _)).
    { by destruct (bool_decide (excluded exclude_id it)). }
    unfold collides, in_name_scope in *.
    destruct (is_text_or_url item_type).
    + intros [Hty _]. congruence.
    + intros [Hty _]. by apply bool_decide_eq_false in Hscope.
Qed.

(** X20: the validator keeps one name space for text and url items
    together and one for each other type.  The answer for a text name
    is the answer for the same name as a url; and the answer for a name
    of any type depends only on the items in the scope of that type:
    the text and url items for a text or a url, the items of that same
    type otherwise. *)
Theorem X20_name_spaces_by_type items item_name item_type exclude_id :
  validate_item_name items item_name (Some "text") exclude_id
  = validate_item_name items item_name (Some "url") exclude_id
  ∧ validate_item_name (List.filter (in_name_scope item_type) items)
                       item_name item_type exclude_id
    = validate_item_name items item_name item_type exclude_id.
Proof.
  unfold validate_item_name. split.
  - destruct (negb (truthy item_name) || blank item_name); [done|].
    induction items as [|it items IH]; [done|].
    rewrite !validate_scan_step, IH.
    assert (bool_decide (collides item_name (Some "text") it)
            = bool_decide (collides item_name (Some "url") it)) as ->;
      done.
  - destruct (negb (truthy item_name) || blank item_name); [done|].
    apply validate_scan_in_scope.
Qed.

(** X21: taking items away never makes a name invalid: a name accepted
    against a list is accepted against every sub-list of it (and a name
    refused against a sub-list is refused against the list). *)
Theorem X21_validation_survives_deletion
    items kept item_name item_type exclude_id :
  kept `sublist_of` items →
  (validate_item_name items item_name item_type exclude_id = None →
   validate_item_name kept item_name item_type exclude_id = None)
  ∧ (validate_item_name kept item_name item_type exclude_id ≠ None →
     validate_item_name items item_name item_type exclude_id ≠ None).
Proof.
  intros Hsub.
  assert (validate_item_name items item_name item_type exclude_id = None →
          validate_item_name kept item_name item_type exclude_id = None)
    as Hnone.
  { unfold validate_item_name.
    destruct (negb (truthy item_name) || blank item_name); [done|].
    rewrite !validate_scan_None. intros Hall it Hit. apply Hall.
    by eapply elem_of_sublist. }
  split; [done|]. intros Hkept Hitems. by apply Hkept, Hnone.
Qed.

Lemma X21_validation_survives_deletion_witness :
  validate_item_name
    [Item "1" (Some "file") None (Some "report.pdf") None ["A"]]
    "other.pdf" (Some "file") None = None
  ∧ validate_item_name
      [mk_item "I0" ["A"];
       Item "1" (Some "file") None (Some "report.pdf") None ["A"];
       Item "2" (Some "file") None (Some "notes.txt") None ["A"]]
      "report.pdf" (Some "file") None ≠ None.
Proof.
  assert ([Item "1" (Some "file") None (Some "report.pdf") None ["A"]]
          `sublist_of`
          [mk_item "I0" ["A"];
           Item "1" (Some "file") None (Some "report.pdf") None ["A"];
           Item "2" (Some "file") None (Some "notes.txt") None ["A"]])
    as Hsub.
  { apply sublist_cons, sublist_skip, sublist_cons, sublist_nil. }
  split.
  - apply (X21_validation_survives_deletion _ _ "other.pdf" (Some "file")
             None Hsub).
    vm_compute. reflexivity.
  - apply (X21_validation_survives_deletion _ _ "report.pdf" (Some "file")
             None Hsub).
    vm_compute. discriminate.
Defined.

(** ** The request handlers *)

Lemma same_name_sym it1 it2 : same_name it1 it2 → same_name it2 it1.
Proof.
  unfold same_name.
  destruct (is_text_or_url (i_type it1)) eqn:H1.
  - intros (H2 & Hsome & Heq). rewrite H2, Heq. done.
  - intros (Hty & Hsome & Heq). rewrite Hty, H1, Heq. done.
Qed.

Lemma blank_default_None : blank (default "" None) = true.
Proof. done. Qed.

(** A body whose name passed the validator collides with the items that
    have the same name as the body. *)
Lemma same_name_collides body it :
  blank (item_name_of body) = false →
  same_name body it → collides (item_name_of body) (i_type body) it.
Proof.
  unfold same_name, collides, item_name_of.
  destruct (is_text_or_url (i_type body)).
  - intros Hblank (Hty & [n Hn] & Heq). rewrite Hn in *. done.
  - intros Hblank (Hty & [n Hn] & Heq). rewrite Hn in *. done.
Qed.

Lemma validated_name_not_blank items name item_type exclude_id :
  validate_item_name items name item_type exclude_id = None →
  blank name = false.
Proof.
  unfold validate_item_name. rewrite blank_empty_or_spaces.
  by destruct (blank name).
Qed.

(** An item whose name passed the validator can be put in front. *)
Lemma names_unique_cons items body created :
  validate_item_name items (item_name_of body) (i_type body) None = None →
  created = with_categoryIds body (i_categoryIds created) →
  names_unique items → names_unique (created :: items).
Proof.
  intros Hvalid Hsame Hunique i j it1 it2 Hi Hj Hne Hname.
  pose proof (validated_name_not_blank _ _ _ _ Hvalid) as Hblank.
  assert (∀ it, it ∈ items → ¬ same_name created it) as Hfresh.
  { intros it Hit Hsame_name.
    unfold validate_item_name in Hvalid.
    rewrite blank_empty_or_spaces, Hblank in Hvalid.
    rewrite validate_scan_None in Hvalid.
    destruct (Hvalid it Hit) as [[Hex _]|Hno]; [done|].
    apply Hno. apply same_name_collides; [done|].
    revert Hsame_name. rewrite Hsame. unfold same_name. simpl. done. }
  destruct i as [|i], j as [|j]; simpl in *; simplify_eq.
  - apply (Hfresh it2); [by eapply list_elem_of_lookup_2|done].
  - apply (Hfresh it1); [by eapply list_elem_of_lookup_2|].
    by apply same_name_sym.
  - apply (Hunique i j it1 it2); [done|done|congruence|done].
Qed.

(** X22: creating an item through [POST /api/items] keeps the names of
    the stored items unique.  A refused or failed request leaves the
    stored list as it was; an accepted one stores the new item first,
    with the given fields and its category ids expanded, and the items
    stored before behind it. *)
Theorem X22_post_item_keeps_names_unique
    fuel items categories body save_ok answer stored :
  post_item fuel items categories body save_ok = Some (answer, stored) →
  (names_unique items → names_unique stored)
  ∧ (∀ created, answer = Created created →
       save_ok = true ∧ stored = created :: items
       ∧ blank (item_name_of body) = false
       ∧ created = with_categoryIds body (i_categoryIds created)
       ∧ (i_categoryIds body = [] → created = body)
       ∧ (i_categoryIds body ≠ [] →
          expand_category_ids fuel (i_categoryIds body) categories
          = Some (i_categoryIds created)))
  ∧ ((∀ created, answer ≠ Created created) → stored = items)
  ∧ (∀ message, answer = BadRequest message ↔
       validate_item_name items (item_name_of body) (i_type body) None
       = Some message).
Proof.
  unfold post_item.
  destruct (validate_item_name items (item_name_of body) (i_type body) None)
    as [error|] eqn:Hvalid.
  { intros [= <- <-]. split_and!; [done|done|done|]. intros m.
    split; congruence. }
  pose proof (validated_name_not_blank _ _ _ _ Hvalid) as Hblank.
  assert (∀ created,
            created = with_categoryIds body (i_categoryIds created) →
            (i_categoryIds body = [] → created = body) →
            (i_categoryIds body ≠ [] →
             expand_category_ids fuel (i_categoryIds body) categories
             = Some (i_categoryIds created)) →
            (if save_ok then Some (Created created, created :: items)
             else Some (ServerError, items)) = Some (answer, stored) →
            (names_unique items → names_unique stored)
            ∧ (∀ created', answer = Created created' →
                 save_ok = true ∧ stored = created' :: items
                 ∧ blank (item_name_of body) = false
                 ∧ created' = with_categoryIds body (i_categoryIds created')
                 ∧ (i_categoryIds body = [] → created' = body)
                 ∧ (i_categoryIds body ≠ [] →
                    expand_category_ids fuel (i_categoryIds body) categories
                    = Some (i_categoryIds created')))
            ∧ ((∀ created', answer ≠ Created created') → stored = items)
            ∧ (∀ message, answer = BadRequest message ↔ None = Some message))
    as Hstore.
  { intros created Hsame Hnil Hexp. destruct save_ok.
    - intros [= <- <-]. split_and!.
      + by apply (names_unique_cons items body).
      + intros created' [= <-]. by split_and!.
      + intros Hnot. by destruct (Hnot created).
      + intros m. split; [done|congruence].
    - intros [= <- <-]. split_and!; [done|done|done|].
      intros m. split; [done|congruence]. }
  destruct (i_categoryIds body) as [|x ids] eqn:Hids; simpl.
  - apply Hstore; [|done|done]. clear -Hids.
    destruct body; simpl in *; by subst.
  - destruct (expand_category_ids fuel (x :: ids) categories) as [e|]; [|done].
    simpl. apply Hstore; done.
Qed.

Lemma X22_post_item_keeps_names_unique_witness :
  names_unique [mk_item "I1" ["C"; "A"; "B"]; mk_item "I0" ["A"]]
  ∧ blank (item_name_of (mk_item "I1" ["C"])) = false
  ∧ expand_category_ids 4 ["C"] treeABC = Some ["C"; "A"; "B"].
Proof.
  destruct (X22_post_item_keeps_names_unique
              4 [mk_item "I0" ["A"]] treeABC (mk_item "I1" ["C"]) true
              (Created (mk_item "I1" ["C"; "A"; "B"]))
              [mk_item "I1" ["C"; "A"; "B"]; mk_item "I0" ["A"]])
    as (Hunique & Hcreated & _).
  - vm_compute. reflexivity.
  - destruct (Hcreated _ eq_refl) as (_ & _ & Hblank & _ & _ & Hexpand).
    split; [|split; [exact Hblank|by apply Hexpand]].
    apply Hunique. intros i j it1 it2 Hi Hj Hne.
    destruct i as [|i], j as [|j]; simpl in *; done.
Defined.

Lemma filter_shorter {A} (f : A → bool) (l : list A) :
  length (List.filter f l) < length l ↔ ∃ x, x ∈ l ∧ f x = false.
Proof.
  induction l as [|a l IH]; simpl.
  { split; [lia|]. intros (x & Hx & _). inversion Hx. }
  pose proof (List.filter_length_le f l).
  destruct (f a) eqn:Ha; simpl.
  - rewrite <-Nat.succ_lt_mono, IH. split.
    + intros (x & Hx & Hfx). exists x. split; [by right|done].
    + intros (x & [->|Hx]%elem_of_cons & Hfx); [congruence|by exists x].
  - split; [|lia]. intros _. exists a. split; [by left|done].
Qed.

(** A list that only has categories of an acyclic list is acyclic. *)
Lemma acyclic_subset categories categories' :
  (∀ c, c ∈ categories' → c ∈ categories) →
  acyclic categories → acyclic categories'.
Proof.
  intros Hsub Hacyclic x Hx. apply (Hacyclic x).
  eapply tc_congruence with (f := id); [|exact Hx].
  intros a b (c & Hc & Hid & Hp). exists c. by split_and!; [apply Hsub|..].
Qed.

(** X23: what [DELETE /api/categories/<id>] does.  It succeeds exactly
    when some category has the id and the write succeeds, and then
    stores the other categories, in order; otherwise the stored list is
    the old one.  The stored list is acyclic whenever the old one was.
    After a deletion the id is nobody's descendant, but categories that
    name it as their parent still do: an ancestor chain that reaches the
    deleted id ends there. *)
Theorem X23_delete_category_leaves_dangling_parents
    categories category_id save_ok answer stored :
  delete_category categories category_id save_ok = (answer, stored) →
  (answer = Success
   ↔ save_ok = true ∧ ∃ c, c ∈ categories ∧ c_id c = category_id)
  ∧ (answer ≠ Success → stored = categories)
  ∧ (answer = Success →
     (∀ c, c ∈ stored ↔ c ∈ categories ∧ c_id c ≠ category_id)
     ∧ stored `sublist_of` categories)
  ∧ (acyclic categories → acyclic stored)
  ∧ (answer = Success →
     ∀ fuel x chain i,
       get_ancestor_ids fuel x stored = Some chain →
       chain !! i = Some category_id → chain !! S i = None)
  ∧ (answer = Success →
     ∀ fuel x below,
       get_descendant_ids fuel x stored = Some below →
       category_id ∉ below).
Proof.
  unfold delete_category.
  set (remaining := List.filter _ categories).
  assert (∀ c, c ∈ remaining ↔ c ∈ categories ∧ c_id c ≠ category_id)
    as Hremaining.
  { intros c. subst remaining.
    rewrite list_elem_of_In, filter_In, <-list_elem_of_In.
    by rewrite negb_true_iff, bool_decide_eq_false. }
  assert (length remaining < length categories
          ↔ ∃ c, c ∈ categories ∧ c_id c = category_id) as Hshorter.
  { subst remaining. rewrite filter_shorter. split.
    - intros (c & Hc & Hf). exists c. split; [done|].
      by apply negb_false_iff, bool_decide_eq_true in Hf.
    - intros (c & Hc & Hid). exists c. split; [done|].
      by apply negb_false_iff, bool_decide_eq_true. }
  destruct (bool_decide_reflect (length remaining < length categories))
    as [Hlt|Hlt]; simpl.
  2: { intros [= <- <-]. split_and!; try done.
       split; [done|]. intros [_ Hex]. by apply Hshorter in Hex. }
  destruct save_ok; simpl.
  2: { intros [= <- <-]. split_and!; try done. by split; [|intros [? _]]. }
  intros [= <- <-]. split_and!.
  - split; [|done]. intros _. split; [done|]. by apply Hshorter.
  - done.
  - intros _. split; [done|]. subst remaining. apply list_filter_sublist.
  - apply acyclic_subset. intros c Hc. by apply Hremaining in Hc as [? _].
  - intros _ fuel x chain i Hchain Hi.
    assert (find_category category_id remaining = None) as Hgone.
    { destruct (find_category category_id remaining) as [c|] eqn:Hfind;
        [|done].
      apply find_category_Some in Hfind as [Hc Hid].
      by apply Hremaining in Hc as [_ Hne]. }
    revert Hchain. rewrite get_ancestor_ids_unfold. case_decide as Hnil.
    + intros [= <-]. by destruct i.
    + rewrite ancestors_loop_acc.
      destruct (ancestors_loop fuel remaining [] x) as [tail|] eqn:Hloop;
        [|done].
      intros [= <-].
      pose proof (ancestors_loop_parent_of _ _ _ _ Hloop i category_id Hi)
        as Hnext.
      change ((x :: tail) !! S i) with (tail !! i). rewrite Hnext.
      unfold parent_of. by rewrite Hgone.
  - intros _ fuel x below Hbelow Hin.
    pose proof (get_descendant_ids_sound _ _ _ _ Hbelow _ Hin) as Hup.
    assert (∃ p, parent_edge remaining category_id p)
      as (p & c & Hc & Hid & _).
    { inversion Hup; eauto. }
    by apply Hremaining in Hc as [_ Hne].
Qed.

Lemma X23_delete_category_leaves_dangling_parents_witness :
  (acyclic treeABC → acyclic [catA; catC])
  ∧ (Success = Success →
     ∀ fuel x chain i,
       get_ancestor_ids fuel x [catA; catC] = Some chain →
       chain !! i = Some "B" → chain !! S i = None).
Proof.
  destruct (X23_delete_category_leaves_dangling_parents
              treeABC "B" true Success [catA; catC])
    as (_ & _ & _ & Hacyclic & Hchain & _).
  - reflexivity.
  - split; [exact Hacyclic|exact Hchain].
Defined.

Lemma category_filter_keeps fuel items categories sel kept it :
  category_filter fuel items categories sel = Some kept →
  it ∈ items → i_categoryIds it ≠ [] →
  ∃ b, matches_all_filters fuel (i_categoryIds it) categories sel = Some b
       ∧ (b = true → it ∈ kept).
Proof.
  revert kept. induction items as [|it0 items IH]; intros kept Hrun Hit Hne;
    [inversion Hit|].
  simpl in Hrun.
  destruct (i_categoryIds it0) as [|x ids] eqn:Hids.
  { apply elem_of_cons in Hit as [->|Hit]; [done|by apply IH]. }
  destruct (matches_all_filters fuel (x :: ids) categories sel) as [b0|]
    eqn:Hb0; [|done].
  simpl in Hrun.
  destruct (category_filter fuel items categories sel) as [filtered|];
    [|done].
  simpl in Hrun. simplify_eq.
  apply elem_of_cons in Hit as [->|Hit].
  - rewrite Hids, Hb0. exists b0. split; [done|]. intros ->. by left.
  - destruct (IH filtered eq_refl Hit Hne) as (b & Hb & Hkept).
    exists b. split; [done|]. intros Htrue. destruct b0; [right|]; by apply Hkept.
Qed.

(** X24: tags added with [batch_add_tags] are found again by the filter.
    After the category [c] was added to a selection, filtering the
    returned list on [c], or on any id of the ancestor chain of [c],
    keeps every selected item. *)
Theorem X24_added_tags_are_found_by_the_filter
    (str_lower : string → string) fuel items item_ids c categories tagged
    chain a kept :
  batch_add_tags fuel items item_ids c categories = Some tagged →
  get_ancestor_ids fuel c categories = Some chain → a ∈ chain →
  filter_items str_lower fuel tagged categories (Some [a]) None = Some kept →
  ∀ it, it ∈ tagged → i_id it ∈ item_ids → it ∈ kept.
Proof.
  intros Htag Hchain Ha Hfilter it Hit Hsel.
  assert (a ∈ i_categoryIds it) as Hheld.
  { destruct (batch_add_tags_run _ _ _ _ _ _ Htag)
      as (chain' & to_add & Hchain' & Hadd & Heq).
    rewrite Heq in Htag. simplify_eq.
    apply list_elem_of_fmap in Hit as (it0 & -> & Hit0).
    destruct (selected item_ids it0) eqn:Hsel0.
    - simpl. apply elem_of_elements, elem_of_union. right.
      by apply elem_of_list_to_set, Hadd.
    - by apply selected_false in Hsel0. }
  unfold filter_items in Hfilter. simpl in Hfilter.
  destruct (category_filter fuel tagged categories [a]) as [kept'|] eqn:Hcat;
    [|done].
  simpl in Hfilter. simplify_eq.
  destruct (category_filter_keeps _ _ _ _ _ it Hcat Hit)
    as (b & Hb & Hkept).
  { intros Hnil. rewrite Hnil in Hheld. inversion Hheld. }
  apply Hkept. simpl in Hb.
  destruct (get_descendant_ids fuel a categories) as [below|]; [|done].
  simpl in Hb.
  destruct (existsb _ (i_categoryIds it)) eqn:Hex; [congruence|].
  exfalso. apply not_true_iff_false in Hex. apply Hex.
  apply existsb_exists. exists a. split; [by apply list_elem_of_In|].
  apply bool_decide_eq_true. set_solver.
Qed.

Lemma X24_added_tags_are_found_by_the_filter_witness :
  mk_item "I" ["C"; "A"; "B"; "X"] ∈ [mk_item "I" ["C"; "A"; "B"; "X"]].
Proof.
  apply (X24_added_tags_are_found_by_the_filter ascii_lower
           4 [mk_item "I" ["X"]] ["I"] "C" treeABC
           [mk_item "I" ["C"; "A"; "B"; "X"]] ["C"; "B"; "A"] "A").
  - vm_compute. reflexivity.
  - reflexivity.
  - right. right. by left.
  - vm_compute. reflexivity.
  - by left.
  - by left.
Defined.
